(** * ftable: box-drawing overlay over text/tabwriter output

    A shallow embedding of [ftable.go].  Bytes and code points (Go's
    [byte] and [rune]) are natural numbers in [N]; a [[]byte] is a
    [list N]; indices and lengths are [nat]; the map
    [separators : map[int]struct{}] is a [gset nat].

    The program imports three pieces of Go's standard library whose code
    is not part of the repository: the UTF-8 codec behind [bytes.Runes]
    and [string(runes)], a few [bytes]/[strings] helpers, and
    [text/tabwriter].  The first two are modelled here after their
    documented behaviour; the tabwriter is a parameter of [main], so that
    every theorem about the renderer holds for whatever the alignment
    engine produced. *)

From Stdlib Require Import NArith ZArith Lia Ascii String.
From stdpp Require Import gmap strings list sorting.

Local Open Scope N_scope.

(** ** unicode/utf8 *)

Module Utf8.

Definition RuneError : N := 0xFFFD.
Definition MaxRune : N := 0x10FFFF.
Definition surrogateMin : N := 0xD800.
Definition surrogateMax : N := 0xDFFF.

(** [utf8.ValidRune]. *)
Definition ValidRune (r : N) : bool :=
  (r <? surrogateMin) || ((surrogateMax <? r) && (r <=? MaxRune)).

(** [utf8.AppendRune]: an invalid rune is written as U+FFFD. *)
Definition EncodeRune (r : N) : list N :=
  if r <=? 0x7F then [r]
  else if r <=? 0x7FF then
    [N.lor 0xC0 (N.shiftr r 6); N.lor 0x80 (N.land r 0x3F)]
  else if negb (ValidRune r) then [0xEF; 0xBF; 0xBD]
  else if r <=? 0xFFFF then
    [N.lor 0xE0 (N.shiftr r 12);
     N.lor 0x80 (N.land (N.shiftr r 6) 0x3F);
     N.lor 0x80 (N.land r 0x3F)]
  else
    [N.lor 0xF0 (N.shiftr r 18);
     N.lor 0x80 (N.land (N.shiftr r 12) 0x3F);
     N.lor 0x80 (N.land (N.shiftr r 6) 0x3F);
     N.lor 0x80 (N.land r 0x3F)].

(** The table [first] together with [acceptRanges]: for a leading byte,
    the length of the sequence it starts and the range allowed for the
    second byte; [None] for a byte that starts no multi-byte sequence. *)
Definition first (p0 : N) : option (nat * N * N) :=
  if p0 <? 0xC2 then None
  else if p0 <=? 0xDF then Some (2%nat, 0x80, 0xBF)
  else if p0 =? 0xE0 then Some (3%nat, 0xA0, 0xBF)
  else if p0 <=? 0xEC then Some (3%nat, 0x80, 0xBF)
  else if p0 =? 0xED then Some (3%nat, 0x80, 0x9F)
  else if p0 <=? 0xEF then Some (3%nat, 0x80, 0xBF)
  else if p0 =? 0xF0 then Some (4%nat, 0x90, 0xBF)
  else if p0 <=? 0xF3 then Some (4%nat, 0x80, 0xBF)
  else if p0 =? 0xF4 then Some (4%nat, 0x80, 0x8F)
  else None.

Definition cont (b : N) : bool := (0x80 <=? b) && (b <=? 0xBF).

(** [utf8.DecodeRune]: the first code point of [p] and its width in
    bytes; [(RuneError, 1)] on an invalid or truncated sequence. *)
Definition DecodeRune (p : list N) : N * nat :=
  match p with
  | [] => (RuneError, 0%nat)
  | p0 :: t =>
    if p0 <? 0x80 then (p0, 1%nat)
    else
      match first p0 with
      | None => (RuneError, 1%nat)
      | Some (sz, lo, hi) =>
        match t with
        | [] => (RuneError, 1%nat)
        | b1 :: t1 =>
          if (b1 <? lo) || (hi <? b1) then (RuneError, 1%nat)
          else if (sz <=? 2)%nat then
            (N.lor (N.shiftl (N.land p0 0x1F) 6) (N.land b1 0x3F), 2%nat)
          else
            match t1 with
            | [] => (RuneError, 1%nat)
            | b2 :: t2 =>
              if negb (cont b2) then (RuneError, 1%nat)
              else if (sz <=? 3)%nat then
                (N.lor (N.lor (N.shiftl (N.land p0 0x0F) 12)
                              (N.shiftl (N.land b1 0x3F) 6))
                       (N.land b2 0x3F), 3%nat)
              else
                match t2 with
                | [] => (RuneError, 1%nat)
                | b3 :: _ =>
                  if negb (cont b3) then (RuneError, 1%nat)
                  else
                    (N.lor (N.lor (N.lor (N.shiftl (N.land p0 0x07) 18)
                                         (N.shiftl (N.land b1 0x3F) 12))
                                  (N.shiftl (N.land b2 0x3F) 6))
                           (N.land b3 0x3F), 4%nat)
                end
            end
        end
      end
  end.

(** [bytes.Runes]: decode until the slice is empty.  Every step drops at
    least one byte, so [length s] steps are enough. *)
Fixpoint Runes_go (fuel : nat) (s : list N) : list N :=
  match fuel with
  | O => []
  | S fuel' =>
    match s with
    | [] => []
    | _ :: _ => let '(r, l) := DecodeRune s in r :: Runes_go fuel' (drop l s)
    end
  end.

Definition Runes (s : list N) : list N := Runes_go (length s) s.

(** [[]byte(string(runes))]. *)
Definition encode (rs : list N) : list N := concat (map EncodeRune rs).

End Utf8.

(** ** The helpers of [bytes] and [strings] that [ftable.go] calls *)

Module Bytes.

(** [bytes.Split(s, []byte{sep})]: the pieces of [s] between occurrences
    of [sep]; one piece more than there are separators, so never empty. *)
Fixpoint Split (sep : N) (s : list N) : list (list N) :=
  match s with
  | [] => [[]]
  | b :: t =>
    if b =? sep then [] :: Split sep t
    else match Split sep t with
         | piece :: pieces => (b :: piece) :: pieces
         | [] => [[b]]
         end
  end.

(** [bytes.Replace(s, []byte{old}, new, -1)]. *)
Definition Replace (s : list N) (old : N) (new : list N) : list N :=
  concat (map (fun b => if b =? old then new else [b]) s).

(** [bytes.Repeat(b, count)]. *)
Definition Repeat (b : list N) (count : nat) : list N :=
  concat (replicate count b).

End Bytes.

Module Strings.

(** [strings.Split(s, sep)] for a one-character [sep]. *)
Fixpoint Split (sep : Ascii.ascii) (s : string) : list string :=
  match s with
  | EmptyString => [EmptyString]
  | String c t =>
    if Ascii.eqb c sep then EmptyString :: Split sep t
    else match Split sep t with
         | piece :: pieces => String c piece :: pieces
         | [] => [String c EmptyString]
         end
  end.

End Strings.

(** ** [ftable.go] *)

Definition termChar : N := 0x0e.

(** The flag bits of [text/tabwriter]: [1 << iota]. *)
Module tabwriter.
Definition FilterHTML : N := 1.
Definition StripEscape : N := 2.
Definition AlignRight : N := 4.
Definition DiscardEmptyColumns : N := 8.
Definition TabIndent : N := 16.
Definition Debug : N := 32.
End tabwriter.

Definition flagBits : list (N * string) :=
  [ (tabwriter.FilterHTML, "filter-html"%string);
    (tabwriter.StripEscape, "strip-escape"%string);
    (tabwriter.AlignRight, "align-right"%string);
    (tabwriter.DiscardEmptyColumns, "discard-empty"%string);
    (tabwriter.TabIndent, "tab-indent"%string);
    (tabwriter.Debug, "debug"%string) ].

(** [init]: [flagNames[n] = b] for every [b, n] of [flagBits]. *)
Definition flagNames : gmap string N :=
  foldr (fun '(b, n) names => <[n := b]> names) ∅ flagBits.

(** The error of [fmt.Errorf("unrecognized flag %q", name)]. *)
Inductive error : Type :=
  | UnrecognizedFlag (name : string).

(** The loop of [tabFlags.Set]: the map is looked up at [v], the whole
    argument, in every iteration; [name] is only used in the error. *)
Fixpoint Set_loop (v : string) (names : list string) (flags : N) : error + N :=
  match names with
  | [] => inr flags
  | name :: names' =>
    match flagNames !! v with
    | Some b => Set_loop v names' (N.lor flags b)
    | None => inl (UnrecognizedFlag name)
    end
  end.

(** [(t *tabFlags) Set(v)]: the new flag word, or the error; on an error
    [*t] is left as it was. *)
Definition tabFlags_Set (t : N) (v : string) : error + N :=
  Set_loop v (Strings.Split ","%char v) t.

(** What the help text of [-flags] promises ("any comma-separated
    combination of the flags"): every name is looked up by itself. *)
Fixpoint Set_spec_loop (names : list string) (flags : N) : error + N :=
  match names with
  | [] => inr flags
  | name :: names' =>
    match flagNames !! name with
    | Some b => Set_spec_loop names' (N.lor flags b)
    | None => inl (UnrecognizedFlag name)
    end
  end.

Definition tabFlags_Set_spec (t : N) (v : string) : error + N :=
  Set_spec_loop (Strings.Split ","%char v) t.

(** *** The command line, once [flag.Parse] has filled the variables *)

Record Config : Type := {
  box : bool;
  header : bool;
  rowlines : bool;
  mwidth : Z;
  tabwidth : Z;
  padding : Z;
  padchar : list N;      (* the bytes of the string given to -padchar *)
  flags : N
}.

(** [text/tabwriter] as [main] uses it: [NewWriter] with the five
    settings, one [Write] of the whole input and [Flush]; the result is
    what reached the underlying writer, or [None] when the tabwriter
    panics ([NewWriter] does for a negative setting). *)
Definition Tabwriter : Type := Z -> Z -> Z -> N -> N -> list N -> option (list N).

(** How the process ends: its exit status and what it wrote to stdout. *)
Record Outcome : Type := { status : Z; stdout : list N }.

(** Box-drawing code points used by the renderer. *)
Module Glyph.
Definition light_h : N := 0x2500.          (* ─ *)
Definition heavy_h : N := 0x2501.          (* ━ *)
Definition light_v : N := 0x2502.          (* │ *)
Definition heavy_v : N := 0x2503.          (* ┃ *)
Definition light_down_right : N := 0x250C. (* ┌ *)
Definition heavy_down_right : N := 0x250F. (* ┏ *)
Definition light_down_left : N := 0x2510.  (* ┐ *)
Definition heavy_down_left : N := 0x2513.  (* ┓ *)
Definition light_up_right : N := 0x2514.   (* └ *)
Definition light_up_left : N := 0x2518.    (* ┘ *)
Definition light_v_right : N := 0x251C.    (* ├ *)
Definition mixed_v_right : N := 0x2521.    (* ┡ *)
Definition light_v_left : N := 0x2524.     (* ┤ *)
Definition mixed_v_left : N := 0x2529.     (* ┩ *)
Definition light_down_h : N := 0x252C.     (* ┬ *)
Definition heavy_down_h : N := 0x2533.     (* ┳ *)
Definition light_up_h : N := 0x2534.       (* ┴ *)
Definition light_cross : N := 0x253C.      (* ┼ *)
Definition mixed_cross : N := 0x2547.      (* ╇ *)
End Glyph.

Definition space : N := 0x20.
Definition tab : N := 0x09.
Definition newline : N := 0x0a.

(** Lines 101-106: the sentinel is put next to every tab.  The two
    replacement sequences are literals of the source; [-padchar] plays no
    part in them. *)
Definition inject (flags : N) (bs : list N) : list N :=
  if N.land flags tabwriter.AlignRight =? tabwriter.AlignRight
  then Bytes.Replace bs tab [space; termChar; space; tab]
  else Bytes.Replace bs tab [tab; termChar; space].

(** Lines 121-125: the inner loop over the code points of one line,
    [i] being the index of the head of [rs]. *)
Fixpoint mark (i : nat) (rs : list N) (separators : gset nat) : gset nat :=
  match rs with
  | [] => separators
  | r :: rs' =>
    mark (S i) rs' (if r =? termChar then {[ i ]} ∪ separators else separators)
  end.

(** Lines 116-126: one iteration of the loop over the lines. *)
Definition scan_line (st : nat * gset nat) (bs : list N) : nat * gset nat :=
  let '(maxLen, separators) := st in
  let reallen := length (Utf8.Runes bs) in
  (if (maxLen <? reallen)%nat then reallen else maxLen,
   mark 0 (Utf8.Runes bs) separators).

(** Lines 114-126: [maxLen] and [separators] after the loop. *)
Definition scan (lines : list (list N)) : nat * gset nat :=
  foldl scan_line (0%nat, ∅) lines.

(** The body of the loop of [applySep] for one index [i]. *)
Definition applySep_at (r : N) (force : bool) (runes : list N) (i : nat) : list N :=
  match runes !! i with
  | Some x => if force || (x =? termChar) then <[i := r]> runes else runes
  | None => runes                                   (* len(runes) <= i *)
  end.

(** [applySep] with the indices of [separators] visited in the order
    [order] (Go leaves the order of a [range] over a map open). *)
Definition applySep_in (order : list nat) (sep : list N) (r : N) (force : bool) : list N :=
  Utf8.encode (foldl (applySep_at r force) (Utf8.Runes sep) order).

(** Lines 128-138. *)
Definition applySep (separators : gset nat) (sep : list N) (r : N) (force : bool) : list N :=
  applySep_in (elements separators) sep r force.

(** [fmt.Sprintf] of a format [pre%spost] at a byte slice. *)
Definition Sprintf (pre : list N) (arg : list N) (post : list N) : list N :=
  Utf8.encode pre ++ arg ++ Utf8.encode post.

(** Lines 151-153 (and 161-163, 171-173): short lines are filled up with
    spaces to [maxLen] code points. *)
Definition fill (maxLen : nat) (line : list N) : list N :=
  let rl := length (Utf8.Runes line) in
  if (rl <? maxLen)%nat then line ++ Bytes.Repeat [space] (maxLen - rl) else line.

(** The call sites that write to stdout in box mode. *)
Inductive Site : Type :=
  | TopRule        (* lines 156 and 166 *)
  | HeaderLine     (* line 157 *)
  | HeaderRule     (* line 158 *)
  | RowRule        (* line 176 *)
  | Row            (* lines 167 and 178 *)
  | BottomRule.    (* line 182 *)

Section Renderer.
Variables (header rowlines : bool).
Variables (maxLen : nat) (separators : gset nat).

(** A horizontal rule: [left], one [h], then [maxLen] times [h] with
    [junction] forced at the separator columns, then [right]. *)
Definition rule (left h junction right : N) : list N :=
  Sprintf [left; h]
          (applySep separators (Bytes.Repeat (Utf8.encode [h]) maxLen) junction true)
          [right; newline].

(** Lines 142-145; the slice stays nil without [-rowlines]. *)
Definition sepLine : list N :=
  if rowlines
  then rule Glyph.light_v_right Glyph.light_h Glyph.light_cross Glyph.light_v_left
  else [].

(** Lines 148-179: what iteration [n] of the output loop writes, one
    element per call of [Printf] or [Write], with the call site. *)
Definition emit (n : nat) (line : list N) : list (Site * list N) :=
  match n with
  | O =>
    if header then
      let line := fill maxLen (applySep separators line Glyph.heavy_v false) in
      [ (TopRule,
         rule Glyph.heavy_down_right Glyph.heavy_h Glyph.heavy_down_h Glyph.heavy_down_left);
        (HeaderLine,
         Sprintf [Glyph.heavy_v; space]
                 (applySep separators line Glyph.heavy_v false)
                 [Glyph.heavy_v; newline]);
        (HeaderRule,
         rule Glyph.mixed_v_right Glyph.heavy_h Glyph.mixed_cross Glyph.mixed_v_left) ]
    else
      let line := fill maxLen (applySep separators line Glyph.light_v false) in
      [ (TopRule,
         rule Glyph.light_down_right Glyph.light_h Glyph.light_down_h Glyph.light_down_left);
        (Row, Sprintf [Glyph.light_v; space] line [Glyph.light_v; newline]) ]
  | S _ =>
    let line := fill maxLen (applySep separators line Glyph.light_v false) in
    (if rowlines && ((header && (1 <? n)%nat) || negb header)
     then [(RowRule, sepLine)] else [])
    ++ [ (Row, Sprintf [Glyph.light_v; space] line [Glyph.light_v; newline]) ]
  end.

(** Line 182. *)
Definition bottom : list N :=
  rule Glyph.light_up_right Glyph.heavy_h Glyph.light_up_h Glyph.light_up_left.

(** Lines 147-182: everything the renderer writes, in order. *)
Definition emit_all (lines : list (list N)) : list (Site * list N) :=
  concat (imap emit lines) ++ [(BottomRule, bottom)].
End Renderer.

(** Line 113. *)
Definition split_lines (outbuf : list N) : list (list N) :=
  Bytes.Split newline outbuf.

(** [maxLen] after line 140: the spec's Render Width. *)
Definition render_width (outbuf : list N) : nat := S (scan (split_lines outbuf)).1.

(** [separators] after line 126: the spec's Separator Column Set. *)
Definition separator_columns (outbuf : list N) : gset nat := (scan (split_lines outbuf)).2.

(** Lines 113-182: from the bytes the tabwriter left in [outbuf] to the
    sequence of writes to stdout. *)
Definition render (header rowlines : bool) (outbuf : list N) : list (Site * list N) :=
  emit_all header rowlines (render_width outbuf) (separator_columns outbuf)
           (split_lines outbuf).

(** The bytes that reach stdout in box mode. *)
Definition boxed (header rowlines : bool) (outbuf : list N) : list N :=
  concat (map snd (render header rowlines outbuf)).

(** [main], after [flag.Parse].  A panic of the tabwriter ends the
    process with Go's status 2 before anything is written. *)
Definition main (tw : Tabwriter) (cfg : Config) (stdin : list N) : Outcome :=
  match padchar cfg with
  | [pc] =>
    if negb (box cfg) then
      match tw (mwidth cfg) (tabwidth cfg) (padding cfg) pc (flags cfg) stdin with
      | Some out => {| status := 0; stdout := out |}
      | None => {| status := 2; stdout := [] |}
      end
    else
      match tw (mwidth cfg) (tabwidth cfg) (padding cfg) pc (flags cfg)
               (inject (flags cfg) stdin) with
      | Some outbuf =>
        {| status := 0; stdout := boxed (header cfg) (rowlines cfg) outbuf |}
      | None => {| status := 2; stdout := [] |}
      end
  | _ => {| status := 1; stdout := [] |}
  end.

(** ** The vocabulary of the specification *)

(** The spec's marker injection, with its pad character [pad]:
    [<pad><marker><pad><separator>] when right-aligned, otherwise
    [<separator><marker><pad>]. *)
Fixpoint inject_spec (pad : N) (right : bool) (bs : list N) : list N :=
  match bs with
  | [] => []
  | b :: bs' =>
    (if b =? tab
     then if right then [pad; termChar; pad; tab] else [tab; termChar; pad]
     else [b]) ++ inject_spec pad right bs'
  end.

(** The align-right flag is active: bit 2 of the flag word. *)
Definition align_right (flags : N) : bool := N.testbit flags 2.

(** The code points of a line after glyph substitution: index [i] holds
    [r] when [i] is a separator column and either [force] is set or the
    code point there is the sentinel; any other code point is kept. *)
Definition subst_runes (separators : gset nat) (r : N) (force : bool) (rs : list N)
    : list N :=
  imap (fun i x =>
          if bool_decide (i ∈ separators) && (force || (x =? termChar)) then r else x)
       rs.

(** The code points of a horizontal rule of width [w]. *)
Definition rule_runes (separators : gset nat) (w : nat) (left h junction right : N)
    : list N :=
  [left; h] ++ subst_runes separators junction true (replicate w h)
  ++ [right; newline].

(** The code points of a boxed line: the bar [v], a space, the line with
    its sentinels turned into [v], spaces up to [w] code points, [v]. *)
Definition row_runes (separators : gset nat) (w : nat) (v : N) (line : list N)
    : list N :=
  [v; space]
  ++ subst_runes separators v false (Utf8.Runes line)
  ++ replicate (w - length (Utf8.Runes line)) space
  ++ [v; newline].

(** The bar that frames line [n]. *)
Definition bar (header : bool) (n : nat) : N :=
  match n with
  | O => if header then Glyph.heavy_v else Glyph.light_v
  | S _ => Glyph.light_v
  end.

(** The junction glyph of the rule written at a call site. *)
Definition junction (header : bool) (site : Site) : option N :=
  match site with
  | TopRule => Some (if header then Glyph.heavy_down_h else Glyph.light_down_h)
  | HeaderRule => Some Glyph.mixed_cross
  | RowRule => Some Glyph.light_cross
  | BottomRule => Some Glyph.light_up_h
  | HeaderLine | Row => None
  end.

Definition is_data (c : Site * list N) : bool :=
  match c.1 with
  | Row | HeaderLine => true
  | _ => false
  end.

(** The writes that carry a line of the table, as code points. *)
Definition data_lines (writes : list (Site * list N)) : list (list N) :=
  map (fun c => Utf8.Runes c.2) (filter (fun c => is_data c = true) writes).

(** The code points strictly between the two edge glyphs of a written
    line [rs] (which ends in the right edge and a newline). *)
Definition interior (rs : list N) : list N := take (length rs - 3) (drop 1 rs).

(** The columns at which a line holds the sentinel. *)
Definition sentinel_columns (rs : list N) : gset nat :=
  list_to_set (filter (fun i => rs !! i = Some termChar) (seq 0 (length rs))).

(** The number of tabs of the input line that has most. *)
Definition most_tabs (input : list N) : nat :=
  max_list (map (fun line => length (filter (fun b => b = tab) line))
                (Bytes.Split newline input)).

(** The writes of iteration [n] of the output loop, as code points. *)
Definition emit_runes (header rowlines : bool) (separators : gset nat) (w : nat)
    (n : nat) (line : list N) : list (Site * list N) :=
  match n with
  | O =>
    if header then
      [ (TopRule, rule_runes separators w Glyph.heavy_down_right Glyph.heavy_h
                             Glyph.heavy_down_h Glyph.heavy_down_left);
        (HeaderLine, row_runes separators w Glyph.heavy_v line);
        (HeaderRule, rule_runes separators w Glyph.mixed_v_right Glyph.heavy_h
                                Glyph.mixed_cross Glyph.mixed_v_left) ]
    else
      [ (TopRule, rule_runes separators w Glyph.light_down_right Glyph.light_h
                             Glyph.light_down_h Glyph.light_down_left);
        (Row, row_runes separators w Glyph.light_v line) ]
  | S _ =>
    (if rowlines && ((header && (1 <? n)%nat) || negb header)
     then [ (RowRule, rule_runes separators w Glyph.light_v_right Glyph.light_h
                                 Glyph.light_cross Glyph.light_v_left) ]
     else [])
    ++ [ (Row, row_runes separators w Glyph.light_v line) ]
  end.

(** The box as code points: the writes of every line, then the bottom
    rule. *)
Definition box_runes (header rowlines : bool) (separators : gset nat) (w : nat)
    (lines : list (list N)) : list (Site * list N) :=
  concat (imap (emit_runes header rowlines separators w) lines)
  ++ [ (BottomRule, rule_runes separators w Glyph.light_up_right Glyph.heavy_h
                               Glyph.light_up_h Glyph.light_up_left) ].

(** The code points of a sequence of writes. *)
Definition decoded (writes : list (Site * list N)) : list (Site * list N) :=
  (fun c => (c.1, Utf8.Runes c.2)) <$> writes.

(** Every element is a Unicode scalar value. *)
Definition valid_runes (rs : list N) : Prop :=
  Forall (fun r => Utf8.ValidRune r = true) rs.

(** What one index of the loop of [applySep] does to one code point. *)
Definition put (r : N) (force : bool) (x : N) : N :=
  if force || (x =? termChar) then r else x.

(** The lengths of the lines, in code points. *)
Definition widths (lines : list (list N)) : list nat :=
  map (fun line => length (Utf8.Runes line)) lines.

(** The sentinel columns of all lines together. *)
Definition all_sentinel_columns (lines : list (list N)) : gset nat :=
  ⋃ (map (fun line => sentinel_columns (Utf8.Runes line)) lines).

(** A run with [-box] and [-padchar .], everything else at its default. *)
Definition dotted : Config :=
  {| box := true; header := false; rowlines := false;
     mwidth := 0; tabwidth := 8; padding := 1; padchar := [0x2e]; flags := 0 |}.

(** A run with [-box] only. *)
Definition boxed_only : Config :=
  {| box := true; header := false; rowlines := false;
     mwidth := 0; tabwidth := 8; padding := 1; padchar := [space]; flags := 0 |}.


(** The code points of a written line: [w + 3] scalar values, none of
    them the newline, and then the newline. *)
Definition framed (w : nat) (rs : list N) : Prop :=
  exists body,
    rs = body ++ [newline] /\ length body = (w + 3)%nat
    /\ (newline ∉ body) /\ valid_runes body.

(** A line of stdout: it ends in the only newline it has, and before
    that it has [w + 3] code points. *)
Definition is_line (w : nat) (bs : list N) : Prop :=
  exists body,
    bs = body ++ [newline] /\ (newline ∉ body)
    /\ length (Utf8.Runes body) = (w + 3)%nat.

(** A code point that can frame the table. *)
Definition glyph (g : N) : Prop :=
  Utf8.ValidRune g = true /\ g <> newline /\ g <> termChar.

(** [string(runes)] of every write. *)
Definition encoded (writes : list (Site * list N)) : list (Site * list N) :=
  (fun d => (d.1, Utf8.encode d.2)) <$> writes.

(** [[]byte(s)] for an ASCII string. *)
Definition bytes_of (s : string) : list N :=
  map N_of_ascii (list_ascii_of_string s).

(** Three lines, the middle one without a tab. *)
Definition ragged : list N :=
  bytes_of "a" ++ [tab] ++ bytes_of "b" ++ [newline]
  ++ bytes_of "x" ++ [newline]
  ++ bytes_of "longer" ++ [tab] ++ bytes_of "c".

(** What the tabwriter makes of [inject 0 ragged]. *)
Definition ragged_aligned : list N :=
  bytes_of "a " ++ [termChar] ++ bytes_of " b" ++ [newline]
  ++ bytes_of "x" ++ [newline]
  ++ bytes_of "longer " ++ [termChar] ++ bytes_of " c".

(** The box of an empty text, as code points. *)
Definition empty_box (header : bool) : list N :=
  if header then
    [ Glyph.heavy_down_right; Glyph.heavy_h; Glyph.heavy_h; Glyph.heavy_down_left; newline;
      Glyph.heavy_v; space; space; Glyph.heavy_v; newline;
      Glyph.mixed_v_right; Glyph.heavy_h; Glyph.heavy_h; Glyph.mixed_v_left; newline;
      Glyph.light_up_right; Glyph.heavy_h; Glyph.heavy_h; Glyph.light_up_left; newline ]
  else
    [ Glyph.light_down_right; Glyph.light_h; Glyph.light_h; Glyph.light_down_left; newline;
      Glyph.light_v; space; space; Glyph.light_v; newline;
      Glyph.light_up_right; Glyph.heavy_h; Glyph.heavy_h; Glyph.light_up_left; newline ].

(** The rule or row required of a write by its site: the junction at
    column [i] of a rule, nothing of a line of the table. *)
Definition junction_at (header : bool) (i : nat) (site : Site) (rs : list N) : Prop :=
  match junction header site with
  | Some j => rs !! (2 + i)%nat = Some j
  | None => True
  end.

(** The scenario of the specification: two rows of two fields. *)
Definition two_by_two : list N :=
  bytes_of "a" ++ [tab] ++ bytes_of "b" ++ [newline]
  ++ bytes_of "ccc" ++ [tab] ++ bytes_of "d".

(** ** [tabFlags.String] and the rest of [ftable.go] *)

(** [sort.Strings]: the strings in increasing (byte-wise) order. *)
Definition sort_Strings (l : list string) : list string :=
  merge_sort String.le l.

(** [strings.Join(elems, sep)]. *)
Fixpoint Join (elems : list string) (sep : string) : string :=
  match elems with
  | [] => EmptyString
  | [e] => e
  | e :: rest => (e ++ sep ++ Join rest sep)%string
  end.

(** Lines 54-58: the loop of [String] over the pairs of [flagBits] still
    to come, [names] being the slice [flags] built so far. *)
Fixpoint String_loop (ui : N) (bits : list (N * string)) (names : list string)
    : list string :=
  match bits with
  | [] => names
  | (b, n) :: bits' =>
    String_loop ui bits' (if N.land ui b =? b then names ++ [n] else names)
  end.

(** [(t *tabFlags) String()], the map [flagBits] being ranged over in the
    order [order]. *)
Definition tabFlags_String_in (order : list (N * string)) (t : N) : string :=
  Join (sort_Strings (String_loop t order [])) ",".

(** Lines 51-61. *)
Definition tabFlags_String (t : N) : string := tabFlags_String_in flagBits t.

(** [init] with the map [flagBits] ranged over in the order [order]
    (the pairs of [order] are visited last to first by [foldr], so the
    first pair is inserted last). *)
Definition flagNames_in (order : list (N * string)) : gmap string N :=
  foldr (fun '(b, n) names => <[n := b]> names) ∅ order.

(** The bits that have a name. *)
Definition known_bits : N := 63.

(** The number of bytes of [bs] equal to [x]. *)
Definition count_byte (x : N) (bs : list N) : nat :=
  length (filter (fun b => b = x) bs).

(** [bytes.Join(pieces, []byte{sep})]. *)
Fixpoint Bytes_Join (pieces : list (list N)) (sep : N) : list N :=
  match pieces with
  | [] => []
  | [p] => p
  | p :: rest => p ++ sep :: Bytes_Join rest sep
  end.

(** The code points of a line with every sentinel turned into [v]. *)
Definition bar_for_sentinel (v : N) (rs : list N) : list N :=
  (fun x => if x =? termChar then v else x) <$> rs.

(** The sites written for a text of [n] lines ([n] is at least one):
    the frame of the first line, then the further lines, each after a
    row rule where the code writes one, then the bottom rule. *)
Definition sites (header rowlines : bool) (n : nat) : list Site :=
  (if header then [TopRule; HeaderLine; HeaderRule] else [TopRule; Row])
  ++ concat (imap (fun k (_ : unit) =>
                     if rowlines && ((header && (0 <? k)%nat) || negb header)
                     then [RowRule; Row] else [Row])
                  (replicate (n - 1) ()))
  ++ [BottomRule].

(** What [string(runes)] makes of a rune: itself, or U+FFFD when it is
    not a Unicode scalar value. *)
Definition sanitize (r : N) : N :=
  if Utf8.ValidRune r then r else Utf8.RuneError.

(** ** Go's [text/tabwriter]

    The alignment engine is a package of Go's standard library, not code
    of the repository; the theorems below hold for any engine.  This
    module follows the library's [Writer] ([Write], [Flush], [format],
    [writeLines], [writePadding]) so that [main] can be run on concrete
    inputs. *)

Module GoTabwriter.
Import Utf8.

Definition Escape : N := 0xff.

Record Cell : Type := {
  size : nat;     (* cell size in bytes *)
  width : Z;      (* cell width in runes *)
  htab : bool     (* the cell is terminated by a tab *)
}.

Definition no_cell : Cell := {| size := 0%nat; width := 0%Z; htab := false |}.

Record Writer : Type := {
  minwidth : Z;
  tabwidth : Z;
  padding : Z;
  padbyte : N;
  wflags : N;
  buf : list N;               (* collected text, without tabs and line breaks *)
  pos : nat;                  (* up to where the width of the cell is known *)
  cell : Cell;                (* the incomplete cell *)
  endChar : N;                (* end of the escaped section, or 0 *)
  lines : list (list Cell);
  output : list N             (* what has been written to the underlying writer *)
}.

Definition has (w : Writer) (flag : N) : bool := negb (N.land (wflags w) flag =? 0).

Definition set_text (w : Writer) (buf' : list N) (pos' : nat) (cell' : Cell) (endChar' : N)
    : Writer :=
  {| minwidth := minwidth w; tabwidth := tabwidth w; padding := padding w;
     padbyte := padbyte w; wflags := wflags w;
     buf := buf'; pos := pos'; cell := cell'; endChar := endChar';
     lines := lines w; output := output w |}.

Definition set_lines (w : Writer) (lines' : list (list Cell)) : Writer :=
  {| minwidth := minwidth w; tabwidth := tabwidth w; padding := padding w;
     padbyte := padbyte w; wflags := wflags w;
     buf := buf w; pos := pos w; cell := cell w; endChar := endChar w;
     lines := lines'; output := output w |}.

Definition write0 (bs : list N) (w : Writer) : Writer :=
  {| minwidth := minwidth w; tabwidth := tabwidth w; padding := padding w;
     padbyte := padbyte w; wflags := wflags w;
     buf := buf w; pos := pos w; cell := cell w; endChar := endChar w;
     lines := lines w; output := output w ++ bs |}.

Definition addLine (w : Writer) : Writer := set_lines w (lines w ++ [[]]).

Definition reset (w : Writer) : Writer :=
  set_lines (set_text w [] 0%nat no_cell 0) [[]].

Definition append (text : list N) (w : Writer) : Writer :=
  set_text w (buf w ++ text) (pos w)
           {| size := (size (cell w) + length text)%nat; width := width (cell w);
              htab := htab (cell w) |}
           (endChar w).

Definition updateWidth (w : Writer) : Writer :=
  set_text w (buf w) (length (buf w))
           {| size := size (cell w);
              width := (width (cell w) + Z.of_nat (length (Runes (drop (pos w) (buf w)))))%Z;
              htab := htab (cell w) |}
           (endChar w).

Definition add_width (d : Z) (w : Writer) : Writer :=
  set_text w (buf w) (pos w)
           {| size := size (cell w); width := (width (cell w) + d)%Z; htab := htab (cell w) |}
           (endChar w).

Definition startEscape (ch : N) (w : Writer) : Writer :=
  set_text w (buf w) (pos w) (cell w)
           (if ch =? Escape then Escape
            else if ch =? 0x3c then 0x3e          (* '<' ... '>' *)
            else if ch =? 0x26 then 0x3b          (* '&' ... ';' *)
            else endChar w).

Definition endEscape (w : Writer) : Writer :=
  let w :=
    if endChar w =? Escape then
      let w := updateWidth w in
      if has w tabwriter.StripEscape then w else add_width (-2) w
    else if endChar w =? 0x3b then add_width 1 w
    else w in
  set_text w (buf w) (length (buf w)) (cell w) 0.

(** Adds the cell to the last line; returns the number of cells of that
    line. *)
Definition terminateCell (tabbed : bool) (w : Writer) : Writer * nat :=
  let c := {| size := size (cell w); width := width (cell w); htab := tabbed |} in
  let last := (length (lines w) - 1)%nat in
  let w' := set_lines (set_text w (buf w) (pos w) no_cell (endChar w))
                      (alter (fun l => l ++ [c]) last (lines w)) in
  (w', S (length (default [] (lines w !! last))))%nat.

(** [writeN] of one of the two eight-byte sources, whose bytes are all
    [b]; slicing with a negative [n] panics. *)
Definition writeN (b : N) (n : Z) (w : Writer) : option Writer :=
  if (n <? 0)%Z then None else Some (write0 (replicate (Z.to_nat n) b) w).

Definition writePadding (textw cellw : Z) (useTabs : bool) (w : Writer) : option Writer :=
  if (padbyte w =? tab) || useTabs then
    if (tabwidth w =? 0)%Z then Some w
    else
      let cellw := (Z.quot (cellw + tabwidth w - 1) (tabwidth w) * tabwidth w)%Z in
      let n := (cellw - textw)%Z in
      if (n <? 0)%Z then None
      else writeN tab (Z.quot (n + tabwidth w - 1) (tabwidth w)) w
  else writeN (padbyte w) (cellw - textw)%Z w.

Definition text_at (w : Writer) (p n : nat) : list N := take n (drop p (buf w)).

(** The loop over the cells of one line in [writeLines]. *)
Fixpoint writeCells (widths : list Z) (j : nat) (cells : list Cell) (useTabs : bool)
    (p : nat) (w : Writer) : option (Writer * nat) :=
  match cells with
  | [] => Some (w, p)
  | c :: cells' =>
    let w := if (0 <? j)%nat && has w tabwriter.Debug then write0 [0x7c] w else w in
    if (size c =? 0)%nat then
      w ← match widths !! j with
          | Some cw => writePadding (width c) cw useTabs w
          | None => Some w
          end;
      writeCells widths (S j) cells' useTabs p w
    else if negb (has w tabwriter.AlignRight) then
      let w := write0 (text_at w p (size c)) w in
      w ← match widths !! j with
          | Some cw => writePadding (width c) cw false w
          | None => Some w
          end;
      writeCells widths (S j) cells' false (p + size c)%nat w
    else
      w ← match widths !! j with
          | Some cw => writePadding (width c) cw false w
          | None => Some w
          end;
      writeCells widths (S j) cells' false (p + size c)%nat
                 (write0 (text_at w p (size c)) w)
  end.

(** [writeLines] over the lines [ls], the first of which has index [i]. *)
Fixpoint writeLines_from (widths : list Z) (i : nat) (ls : list (list Cell))
    (p : nat) (w : Writer) : option (Writer * nat) :=
  match ls with
  | [] => Some (w, p)
  | line :: ls' =>
    '(w, p) ← writeCells widths 0%nat line (has w tabwriter.TabIndent) p w;
    let '(w, p) :=
      if (S i =? length (lines w))%nat
      then (write0 (text_at w p (size (cell w))) w, (p + size (cell w))%nat)
      else (write0 [newline] w, p) in
    writeLines_from widths (S i) ls' p w
  end.

Definition writeLines (widths : list Z) (p : nat) (line0 line1 : nat) (w : Writer)
    : option (Writer * nat) :=
  writeLines_from widths line0 (take (line1 - line0)%nat (drop line0 (lines w))) p w.

(** The inner loop of [format]: the column block that starts at [this];
    returns its width, whether it is discardable, and the line after it. *)
Fixpoint block (pad : Z) (column : nat) (ls : list (list Cell)) (this : nat)
    (wd : Z) (discardable : bool) : Z * bool * nat :=
  match ls with
  | [] => (wd, discardable, this)
  | line :: ls' =>
    if (Z.of_nat (length line) - 1 <=? Z.of_nat column)%Z then (wd, discardable, this)
    else
      let c := default no_cell (line !! column) in
      let wd := if (wd <? width c + pad)%Z then (width c + pad)%Z else wd in
      let discardable := if (0 <? width c)%Z || htab c then false else discardable in
      block pad column ls' (S this) wd discardable
  end.

(** [format], as the state of its outer loop; the recursive call for the
    columns to the right starts the loop again with one more width. *)
Fixpoint format_loop (fuel : nat) (widths : list Z) (p : nat) (line0 this line1 : nat)
    (w : Writer) : option (Writer * nat) :=
  match fuel with
  | O => None
  | S fuel' =>
    if (line1 <=? this)%nat then writeLines widths p line0 line1 w
    else
      let line := default [] (lines w !! this) in
      let column := length widths in
      if (Z.of_nat (length line) - 1 <=? Z.of_nat column)%Z
      then format_loop fuel' widths p line0 (S this) line1 w
      else
        '(w, p) ← writeLines widths p line0 this w;
        let '(wd, discardable, this') :=
          block (padding w) column (take (line1 - this)%nat (drop this (lines w)))
                this (minwidth w) true in
        let wd := if discardable && has w tabwriter.DiscardEmptyColumns then 0%Z else wd in
        '(w, p) ← format_loop fuel' (widths ++ [wd]) p this this this' w;
        format_loop fuel' widths p this' (S this') line1 w
  end.

Definition format_fuel (w : Writer) : nat :=
  (S (S (foldr Nat.max 0%nat (map length (lines w)))) * S (S (2 * length (lines w))))%nat.

Definition flushNoDefers (w : Writer) : option Writer :=
  let w :=
    if (0 <? size (cell w))%nat then
      (terminateCell false (if endChar w =? 0 then w else endEscape w)).1
    else w in
  '(w, _) ← format_loop (format_fuel w) [] 0%nat 0%nat 0%nat (length (lines w)) w;
  Some (reset w).

(** One iteration of the loop of [Write]; [text] is [buf[n:i]], the
    bytes seen since the last cell or escape boundary. *)
Definition Write_byte (st : option (Writer * list N)) (ch : N)
    : option (Writer * list N) :=
  '(w, text) ← st;
  if endChar w =? 0 then
    if (ch =? tab) || (ch =? 0x0b) || (ch =? newline) || (ch =? 0x0c) then
      let w := updateWidth (append text w) in
      let '(w, ncells) := terminateCell (ch =? tab) w in
      if (ch =? newline) || (ch =? 0x0c) then
        let w := addLine w in
        if (ch =? 0x0c) || (ncells =? 1)%nat then
          w ← flushNoDefers w;
          Some (if (ch =? 0x0c) && has w tabwriter.Debug
                then write0 [0x2d; 0x2d; 0x2d; newline] w else w, [])
        else Some (w, [])
      else Some (w, [])
    else if ch =? Escape then
      let w := updateWidth (append text w) in
      Some (startEscape Escape w, if has w tabwriter.StripEscape then [] else [ch])
    else if ((ch =? 0x3c) || (ch =? 0x26)) && has w tabwriter.FilterHTML then
      let w := updateWidth (append text w) in
      Some (startEscape ch w, [ch])
    else Some (w, text ++ [ch])
  else if ch =? endChar w then
    let text := if (ch =? Escape) && has w tabwriter.StripEscape then text else text ++ [ch] in
    Some (endEscape (append text w), [])
  else Some (w, text ++ [ch]).

Definition Write (bs : list N) (w : Writer) : option Writer :=
  '(w, text) ← foldl Write_byte (Some (w, [])) bs;
  Some (append text w).

(** [NewWriter]; negative settings panic. *)
Definition NewWriter (mw tw pad : Z) (padchar : N) (fl : N) : option Writer :=
  if (mw <? 0)%Z || (tw <? 0)%Z || (pad <? 0)%Z then None
  else Some {| minwidth := mw; tabwidth := tw; padding := pad; padbyte := padchar;
               wflags := if padchar =? tab
                         then N.ldiff fl tabwriter.AlignRight else fl;
               buf := []; pos := 0%nat; cell := no_cell; endChar := 0;
               lines := [[]]; output := [] |}.

(** [NewWriter], [Write] of the whole input, [Flush]. *)
Definition run : Tabwriter := fun mw tw pad padchar fl input =>
  w ← NewWriter mw tw pad padchar fl;
  w ← Write input w;
  w ← flushNoDefers w;
  Some (output w).

End GoTabwriter.

(** * Proofs *)

(** *** Facts about the codec *)

Module Utf8Facts.
Import Utf8.

Lemma lor_shifted (a b n : N) :
  b < 2 ^ n -> N.lor (a * 2 ^ n) b = a * 2 ^ n + b.
Proof.
  intros Hb.
  assert (Hz : N.land (a * 2 ^ n) b = 0).
  { apply N.bits_inj_0. intros i. rewrite N.land_spec.
    destruct (N.lt_ge_cases i n) as [Hi | Hi].
    - rewrite N.mul_pow2_bits_low by assumption. reflexivity.
    - destruct (N.eq_dec b 0) as [-> | Hb0].
      + rewrite N.bits_0. apply andb_false_r.
      + rewrite (N.bits_above_log2 b i), andb_false_r; [reflexivity |].
        apply N.log2_lt_pow2; [lia |].
        eapply N.lt_le_trans; [exact Hb |].
        apply N.pow_le_mono_r; lia. }
  rewrite <- N.lxor_lor by exact Hz.
  symmetry. apply N.add_nocarry_lxor. exact Hz.
Qed.


Lemma land_mask (x k : N) : N.land x (N.ones k) = x mod 2 ^ k.
Proof. apply N.land_ones. Qed.

(** Rewrites the bit operations of the codec into arithmetic. *)
Ltac to_arith :=
  change 0x3F with (N.ones 6); change 0x1F with (N.ones 5);
  change 0x0F with (N.ones 4); change 0x07 with (N.ones 3);
  rewrite ?land_mask, ?N.shiftr_div_pow2, ?N.shiftl_mul_pow2;
  change (2 ^ 3) with 8; change (2 ^ 4) with 16; change (2 ^ 5) with 32;
  change (2 ^ 6) with 64; change (2 ^ 12) with 4096;
  change (2 ^ 18) with 262144.

Lemma lor_add (a b n : N) : b < 2 ^ n -> N.lor (a * 2 ^ n) b = a * 2 ^ n + b.
Proof. apply lor_shifted. Qed.

Lemma lead2 (x : N) : x < 32 -> N.lor 0xC0 x = 192 + x.
Proof. intros H. apply (lor_add 6 x 5). simpl. lia. Qed.

Lemma lead3 (x : N) : x < 16 -> N.lor 0xE0 x = 224 + x.
Proof. intros H. apply (lor_add 14 x 4). simpl. lia. Qed.

Lemma lead4 (x : N) : x < 8 -> N.lor 0xF0 x = 240 + x.
Proof. intros H. apply (lor_add 30 x 3). simpl. lia. Qed.

Lemma trail (x : N) : x < 64 -> N.lor 0x80 x = 128 + x.
Proof. intros H. apply (lor_add 2 x 6). simpl. lia. Qed.

Lemma join6 (a b : N) : b < 64 -> N.lor (a * 64) b = a * 64 + b.
Proof. intros H. apply (lor_add a b 6). simpl. lia. Qed.

Lemma join12 (a b : N) : b < 4096 -> N.lor (a * 4096) b = a * 4096 + b.
Proof. intros H. apply (lor_add a b 12). simpl. lia. Qed.

Lemma join18 (a b : N) : b < 262144 -> N.lor (a * 262144) b = a * 262144 + b.
Proof. intros H. apply (lor_add a b 18). simpl. lia. Qed.

Ltac nlia := zify; Z.to_euclidean_division_equations; lia.

(** Splits on every boolean test of the goal and turns the outcomes into
    arithmetic hypotheses. *)
Ltac split_tests :=
  repeat match goal with
         | |- context [if ?c then _ else _] => destruct c eqn:?
         end.

Ltac bool_hyps :=
  unfold cont, ValidRune, surrogateMin, surrogateMax, MaxRune, RuneError in *;
  repeat match goal with
         | H : negb _ = true |- _ => apply negb_true_iff in H
         | H : negb _ = false |- _ => apply negb_false_iff in H
         | H : (_ || _)%bool = true |- _ => apply orb_true_iff in H; destruct H
         | H : (_ || _)%bool = false |- _ => apply orb_false_iff in H; destruct H
         | H : (_ && _)%bool = true |- _ => apply andb_true_iff in H; destruct H
         | H : (_ && _)%bool = false |- _ => apply andb_false_iff in H; destruct H
         | H : (_ <? _) = true |- _ => apply N.ltb_lt in H
         | H : (_ <? _) = false |- _ => apply N.ltb_ge in H
         | H : (_ <=? _) = true |- _ => apply N.leb_le in H
         | H : (_ <=? _) = false |- _ => apply N.leb_gt in H
         | H : (_ =? _) = true |- _ => apply N.eqb_eq in H
         | H : (_ =? _) = false |- _ => apply N.eqb_neq in H
         | H : (_ <=? _)%nat = true |- _ => apply Nat.leb_le in H
         | H : (_ <=? _)%nat = false |- _ => apply Nat.leb_gt in H
         end.

(** **** What the encoder writes, in arithmetic *)

Lemma ValidRune_le (r : N) : ValidRune r = true -> r <= 0x10FFFF.
Proof.
  unfold ValidRune, surrogateMin, surrogateMax, MaxRune.
  intros [H | [_ H]%andb_true_iff]%orb_true_iff.
  - apply N.ltb_lt in H. lia.
  - apply N.leb_le in H. lia.
Qed.

Lemma EncodeRune_1 (r : N) : r <= 0x7F -> EncodeRune r = [r].
Proof.
  intros H. unfold EncodeRune. split_tests; bool_hyps; try reflexivity; lia.
Qed.

Lemma EncodeRune_2 (r : N) :
  0x7F < r -> r <= 0x7FF -> EncodeRune r = [192 + r / 64; 128 + r mod 64].
Proof.
  intros H1 H2. unfold EncodeRune. split_tests; bool_hyps; try lia.
  all: to_arith; rewrite lead2, trail by nlia; reflexivity.
Qed.

Lemma EncodeRune_3 (r : N) :
  0x7FF < r -> r <= 0xFFFF -> ValidRune r = true ->
  EncodeRune r = [224 + r / 4096; 128 + (r / 64) mod 64; 128 + r mod 64].
Proof.
  intros H1 H2 Hv. unfold EncodeRune. rewrite Hv. simpl negb.
  split_tests; bool_hyps; try lia.
  all: to_arith; rewrite lead3, !trail by nlia; reflexivity.
Qed.

Lemma EncodeRune_4 (r : N) :
  0xFFFF < r -> ValidRune r = true ->
  EncodeRune r =
    [240 + r / 262144; 128 + (r / 4096) mod 64;
     128 + (r / 64) mod 64; 128 + r mod 64].
Proof.
  intros H1 Hv. unfold EncodeRune. rewrite Hv. simpl negb.
  assert (r <= 0x10FFFF) by (apply ValidRune_le; exact Hv).
  split_tests; bool_hyps; try lia.
  all: to_arith; rewrite lead4, !trail by nlia; reflexivity.
Qed.

Lemma EncodeRune_invalid (r : N) :
  ValidRune r = false -> EncodeRune r = EncodeRune RuneError.
Proof.
  intros Hv. unfold EncodeRune at 1. rewrite Hv. simpl negb.
  split_tests; bool_hyps; try reflexivity; lia.
Qed.

(** **** What the decoder reads, in arithmetic *)

Lemma DecodeRune_arith (p : list N) :
  DecodeRune p =
  match p with
  | [] => (RuneError, 0%nat)
  | p0 :: t =>
    if p0 <? 0x80 then (p0, 1%nat)
    else
      match first p0 with
      | None => (RuneError, 1%nat)
      | Some (sz, lo, hi) =>
        match t with
        | [] => (RuneError, 1%nat)
        | b1 :: t1 =>
          if (b1 <? lo) || (hi <? b1) then (RuneError, 1%nat)
          else if (sz <=? 2)%nat then
            ((p0 mod 32) * 64 + b1 mod 64, 2%nat)
          else
            match t1 with
            | [] => (RuneError, 1%nat)
            | b2 :: t2 =>
              if negb (cont b2) then (RuneError, 1%nat)
              else if (sz <=? 3)%nat then
                ((p0 mod 16) * 4096 + (b1 mod 64) * 64 + b2 mod 64, 3%nat)
              else
                match t2 with
                | [] => (RuneError, 1%nat)
                | b3 :: _ =>
                  if negb (cont b3) then (RuneError, 1%nat)
                  else
                    ((p0 mod 8) * 262144 + (b1 mod 64) * 4096
                     + (b2 mod 64) * 64 + b3 mod 64, 4%nat)
                end
            end
        end
      end
  end.
Proof.
  unfold DecodeRune.
  destruct p as [| p0 [| b1 [| b2 [| b3 t]]]]; try reflexivity;
    destruct (p0 <? 128); try reflexivity;
    destruct (first p0) as [[[sz lo] hi] |]; try reflexivity;
    (destruct ((b1 <? lo) || (hi <? b1))%bool; [reflexivity |]);
    to_arith;
    (destruct (sz <=? 2)%nat; [rewrite join6 by nlia; reflexivity |]);
    try reflexivity;
    (destruct (negb (cont b2)); [reflexivity |]);
    (destruct (sz <=? 3)%nat;
     [ rewrite (join12 _ (b1 mod 64 * 64)) by nlia;
       replace (p0 mod 16 * 4096 + b1 mod 64 * 64)
         with ((p0 mod 16 * 64 + b1 mod 64) * 64) by lia;
       rewrite join6 by nlia; f_equal; try lia |]);
    try reflexivity.
  destruct (negb (cont b3)); [reflexivity |].
  rewrite (join18 _ (b1 mod 64 * 4096)) by nlia.
  replace (p0 mod 8 * 262144 + b1 mod 64 * 4096)
    with ((p0 mod 8 * 64 + b1 mod 64) * 4096) by lia.
  rewrite join12 by nlia.
  replace ((p0 mod 8 * 64 + b1 mod 64) * 4096 + b2 mod 64 * 64)
    with (((p0 mod 8 * 64 + b1 mod 64) * 64 + b2 mod 64) * 64) by lia.
  rewrite join6 by nlia. f_equal; try lia.
Qed.

Lemma ValidRune_intro (r : N) :
  r < 0xD800 \/ (0xDFFF < r /\ r <= 0x10FFFF) -> ValidRune r = true.
Proof.
  unfold ValidRune, surrogateMin, surrogateMax, MaxRune.
  intros [H | [H1 H2]]; apply orb_true_iff.
  - left. apply N.ltb_lt. exact H.
  - right. apply andb_true_iff. split; [apply N.ltb_lt | apply N.leb_le]; assumption.
Qed.

(** Whatever the bytes are, the decoder returns a Unicode scalar value. *)
Lemma DecodeRune_valid (p : list N) : ValidRune (DecodeRune p).1 = true.
Proof.
  rewrite DecodeRune_arith.
  destruct p as [| p0 [| b1 [| b2 [| b3 t]]]]; unfold first;
    split_tests; try reflexivity; simpl fst;
    apply ValidRune_intro; bool_hyps; simplify_eq; nlia.
Qed.

Lemma DecodeRune_size (p : list N) :
  p <> [] -> (1 <= (DecodeRune p).2 <= length p)%nat.
Proof.
  intros Hp. unfold DecodeRune.
  destruct p as [| p0 [| b1 [| b2 [| b3 t]]]]; [done | ..];
    repeat match goal with
           | |- context [first ?x] => destruct (first x) as [[[? ?] ?] |]
           | |- context [if ?c then _ else _] => destruct c
           end; simpl; lia.
Qed.

(** Decoding what the encoder wrote gives the code point back. *)
Lemma DecodeRune_EncodeRune (r : N) (rest : list N) :
  ValidRune r = true ->
  DecodeRune (EncodeRune r ++ rest) = (r, length (EncodeRune r)).
Proof.
  intros Hv. pose proof (ValidRune_le r Hv) as Hmax.
  rewrite DecodeRune_arith.
  destruct (N.le_gt_cases r 0x7F) as [H1 | H1].
  { rewrite EncodeRune_1 by exact H1. simpl.
    replace (r <? 128) with true by (symmetry; apply N.ltb_lt; lia).
    reflexivity. }
  destruct (N.le_gt_cases r 0x7FF) as [H2 | H2].
  { rewrite EncodeRune_2 by lia. simpl. unfold first.
    split_tests; bool_hyps; simplify_eq; try nlia.
    all: f_equal; nlia. }
  destruct (N.le_gt_cases r 0xFFFF) as [H3 | H3].
  { rewrite EncodeRune_3 by (assumption || lia). simpl. unfold first.
    split_tests; bool_hyps; simplify_eq; try nlia.
    all: f_equal; nlia. }
  rewrite EncodeRune_4 by (assumption || lia). simpl. unfold first.
  split_tests; bool_hyps; simplify_eq; try nlia.
  all: f_equal; nlia.
Qed.

End Utf8Facts.

(** *** Facts about [bytes.Runes] *)

Module RunesFacts.
Import Utf8 Utf8Facts.

Lemma Runes_go_fuel (f f' : nat) (s : list N) :
  (length s <= f)%nat -> (length s <= f')%nat -> Runes_go f s = Runes_go f' s.
Proof.
  revert f' s. induction f as [| f IH]; intros f' s Hf Hf'.
  - destruct s; [| simpl in Hf; lia]. destruct f'; reflexivity.
  - destruct s as [| b t]; [destruct f'; reflexivity |].
    destruct f' as [| f']; [simpl in Hf'; lia |].
    cbn [Runes_go].
    pose proof (DecodeRune_size (b :: t) ltac:(done)) as Hsz.
    destruct (DecodeRune (b :: t)) as [r l]. simpl in Hsz.
    f_equal. apply IH; rewrite length_drop; simpl in *; lia.
Qed.

Lemma Runes_nil : Runes [] = [].
Proof. reflexivity. Qed.

(** One iteration of the loop of [bytes.Runes]. *)
Lemma Runes_step (s : list N) :
  s <> [] ->
  Runes s = (DecodeRune s).1 :: Runes (drop (DecodeRune s).2 s).
Proof.
  intros Hs. unfold Runes. destruct s as [| b t]; [done |].
  cbn [length Runes_go].
  pose proof (DecodeRune_size (b :: t) Hs) as Hsz.
  destruct (DecodeRune (b :: t)) as [r l]. simpl in *.
  f_equal. apply Runes_go_fuel; rewrite ?length_drop; simpl; lia.
Qed.

Lemma Runes_valid (s : list N) : valid_runes (Runes s).
Proof.
  remember (length s) as n eqn:Hn. revert s Hn.
  induction n as [n IH] using lt_wf_ind. intros s ->.
  destruct s as [| b t]; [constructor |].
  rewrite Runes_step by done.
  pose proof (DecodeRune_size (b :: t) ltac:(done)) as Hsz.
  constructor; [apply DecodeRune_valid |].
  eapply IH; [| reflexivity]. rewrite length_drop. simpl in *. lia.
Qed.

Lemma EncodeRune_nonempty (r : N) : EncodeRune r <> [].
Proof. unfold EncodeRune. split_tests; done. Qed.

(** Bytes written by [string(runes)] decode to the same code points,
    whatever follows them. *)
Lemma Runes_encode_app (rs : list N) (rest : list N) :
  valid_runes rs -> Runes (encode rs ++ rest) = rs ++ Runes rest.
Proof.
  induction 1 as [| r rs Hr Hrs IH]; [reflexivity |].
  unfold encode in *. cbn [map concat]. rewrite <- app_assoc.
  rewrite Runes_step.
  - rewrite DecodeRune_EncodeRune by exact Hr. simpl.
    rewrite drop_app_length. f_equal. exact IH.
  - pose proof (EncodeRune_nonempty r). destruct (EncodeRune r); done.
Qed.

Lemma Runes_encode (rs : list N) : valid_runes rs -> Runes (encode rs) = rs.
Proof.
  intros H. rewrite <- (app_nil_r (encode rs)), Runes_encode_app by exact H.
  rewrite Runes_nil. apply app_nil_r.
Qed.

Lemma encode_app (rs rs' : list N) : encode (rs ++ rs') = encode rs ++ encode rs'.
Proof. unfold encode. rewrite map_app. apply concat_app. Qed.

(** Re-encoding decoded bytes keeps the code points (an invalid byte has
    become U+FFFD, and stays so). *)
Lemma Runes_encode_Runes (s : list N) : Runes (encode (Runes s)) = Runes s.
Proof. apply Runes_encode, Runes_valid. Qed.

End RunesFacts.

(** *** ASCII bytes and code points *)

Module AsciiFacts.
Import Utf8 Utf8Facts RunesFacts.

(** A code point below 0x80 is decoded from its own byte only. *)
Lemma DecodeRune_ascii (p : list N) (c : N) :
  c < 0x80 -> (DecodeRune p).1 = c -> head p = Some c.
Proof.
  intros Hc. rewrite DecodeRune_arith.
  destruct p as [| p0 [| b1 [| b2 [| b3 t]]]]; unfold first;
    split_tests; simpl fst; simpl head; intros <-; try reflexivity;
    exfalso; bool_hyps; simplify_eq; nlia.
Qed.

Lemma Runes_ascii (c : N) (s : list N) : c < 0x80 -> c ∈ Runes s -> c ∈ s.
Proof.
  intros Hc. remember (length s) as n eqn:Hn. revert s Hn.
  induction n as [n IH] using lt_wf_ind. intros s -> Hin.
  destruct s as [| b t]; [by rewrite Runes_nil in Hin |].
  rewrite Runes_step in Hin by done.
  pose proof (DecodeRune_size (b :: t) ltac:(done)) as Hsz.
  apply elem_of_cons in Hin as [Heq | Hin].
  - symmetry in Heq. apply DecodeRune_ascii in Heq; [| exact Hc].
    simpl in Heq. inversion Heq. apply list_elem_of_here.
  - eapply subseteq_drop, (IH _ _ _ eq_refl Hin).
    Unshelve. rewrite length_drop. simpl in *. lia.
Qed.

(** The encoder writes a byte below 0x80 for that code point only. *)
Lemma EncodeRune_ascii (c r : N) : c < 0x80 -> c ∈ EncodeRune r -> r = c.
Proof.
  intros Hc Hin.
  destruct (N.le_gt_cases r 0x7F) as [H1 | H1].
  { rewrite EncodeRune_1 in Hin by exact H1.
    by apply list_elem_of_singleton in Hin. }
  exfalso. destruct (N.le_gt_cases r 0x7FF) as [H2 | H2].
  { rewrite EncodeRune_2 in Hin by lia.
    repeat (apply elem_of_cons in Hin as [-> | Hin]; [nlia |]).
    by apply elem_of_nil in Hin. }
  destruct (ValidRune r) eqn:Hv.
  - destruct (N.le_gt_cases r 0xFFFF) as [H3 | H3].
    + rewrite EncodeRune_3 in Hin by (assumption || lia).
      repeat (apply elem_of_cons in Hin as [-> | Hin]; [nlia |]).
      by apply elem_of_nil in Hin.
    + rewrite EncodeRune_4 in Hin by (assumption || lia).
      repeat (apply elem_of_cons in Hin as [-> | Hin]; [nlia |]).
      by apply elem_of_nil in Hin.
  - rewrite EncodeRune_invalid in Hin by exact Hv.
    vm_compute in Hin.
    repeat (apply elem_of_cons in Hin as [-> | Hin]; [lia |]).
    by apply elem_of_nil in Hin.
Qed.

Lemma encode_ascii (c : N) (rs : list N) : c < 0x80 -> c ∈ encode rs -> c ∈ rs.
Proof.
  intros Hc. unfold encode. induction rs as [| r rs IH]; simpl; [done |].
  intros [H | H]%elem_of_app.
  - apply EncodeRune_ascii in H as ->; [apply list_elem_of_here | exact Hc].
  - apply list_elem_of_further, IH, H.
Qed.

(** The pieces of [bytes.Split] do not hold the separator. *)
Lemma Split_pieces (sep : N) (s piece : list N) :
  piece ∈ Bytes.Split sep s -> sep ∉ piece.
Proof.
  revert piece. induction s as [| b t IH]; intros piece; simpl.
  - intros ->%list_elem_of_singleton. apply not_elem_of_nil.
  - destruct (N.eqb_spec b sep) as [-> | Hne].
    + intros [-> | H]%elem_of_cons; [apply not_elem_of_nil | by apply IH].
    + destruct (Bytes.Split sep t) as [| p ps].
      * intros ->%list_elem_of_singleton.
        intros [-> | H]%elem_of_cons; [done | by apply elem_of_nil in H].
      * intros [-> | H]%elem_of_cons.
        -- intros [-> | H]%elem_of_cons; [done |].
           by apply (IH p); [apply list_elem_of_here |].
        -- apply IH. by apply list_elem_of_further.
Qed.

End AsciiFacts.

(** ** Glyph substitution *)

Module ApplySepFacts.
Import Utf8 Utf8Facts RunesFacts.

Lemma applySep_at_lookup (r : N) (force : bool) (runes : list N) (i j : nat) :
  applySep_at r force runes i !! j =
  if decide (i = j) then put r force <$> runes !! j else runes !! j.
Proof.
  unfold applySep_at, put. destruct (decide (i = j)) as [-> | Hne].
  - destruct (runes !! j) as [x |] eqn:Hx; simpl.
    + destruct (force || (x =? termChar)).
      * apply list_lookup_insert_eq. eapply lookup_lt_Some. exact Hx.
      * exact Hx.
    + exact Hx.
  - destruct (runes !! i) as [x |]; [| reflexivity].
    destruct (force || (x =? termChar)); [| reflexivity].
    apply list_lookup_insert_ne. exact Hne.
Qed.

(** The loop touches every index of a duplicate-free [order] once. *)
Lemma applySep_loop_lookup (r : N) (force : bool) (order : list nat) :
  NoDup order ->
  forall (runes : list N) (j : nat),
    foldl (applySep_at r force) runes order !! j =
    if decide (j ∈ order) then put r force <$> runes !! j else runes !! j.
Proof.
  induction 1 as [| i order Hi Hnd IH]; intros runes j.
  - simpl. destruct (decide (j ∈ [])) as [H | _]; [| reflexivity].
    by apply not_elem_of_nil in H.
  - cbn [foldl]. rewrite IH, !applySep_at_lookup.
    destruct (decide (j ∈ order)) as [Hj | Hj],
             (decide (i = j)) as [-> | Hne],
             (decide (j ∈ _ :: order)) as [Hc | Hc];
      try done.
    + exfalso. apply Hc. by apply elem_of_cons; right.
    + exfalso. apply Hc. by apply elem_of_cons; left.
    + exfalso. apply elem_of_cons in Hc as [-> | Hc]; done.
Qed.

Lemma subst_runes_lookup (S : gset nat) (r : N) (force : bool) (rs : list N) (j : nat) :
  subst_runes S r force rs !! j =
  if decide (j ∈ S) then put r force <$> rs !! j else rs !! j.
Proof.
  unfold subst_runes, put. rewrite list_lookup_imap.
  destruct (rs !! j) as [x |]; simpl; [| by destruct (decide _)].
  destruct (decide (j ∈ S)) as [H | H].
  - rewrite bool_decide_eq_true_2 by exact H. reflexivity.
  - rewrite bool_decide_eq_false_2 by exact H. reflexivity.
Qed.

Lemma subst_runes_length (S : gset nat) (r : N) (force : bool) (rs : list N) :
  length (subst_runes S r force rs) = length rs.
Proof. apply length_imap. Qed.

(** The loop of [applySep] computes [subst_runes], in whatever order the
    indices of the set are visited. *)
Lemma applySep_loop (S : gset nat) (order : list nat) (r : N) (force : bool)
    (runes : list N) :
  NoDup order -> (forall i, i ∈ order <-> i ∈ S) ->
  foldl (applySep_at r force) runes order = subst_runes S r force runes.
Proof.
  intros Hnd Hin. apply list_eq. intros j.
  rewrite applySep_loop_lookup, subst_runes_lookup by exact Hnd.
  destruct (decide (j ∈ order)) as [H | H], (decide (j ∈ S)) as [H' | H'];
    try reflexivity; exfalso; apply Hin in H || apply Hin in H'; done.
Qed.

Lemma applySep_in_order (S : gset nat) (order : list nat) (sep : list N) (r : N)
    (force : bool) :
  NoDup order -> (forall i, i ∈ order <-> i ∈ S) ->
  applySep_in order sep r force = applySep S sep r force.
Proof.
  intros Hnd Hin. unfold applySep, applySep_in.
  rewrite (applySep_loop S order), (applySep_loop S (elements S)); try done.
  - apply NoDup_elements.
  - intros i. apply elem_of_elements.
Qed.

Lemma applySep_bytes (S : gset nat) (sep : list N) (r : N) (force : bool) :
  applySep S sep r force = encode (subst_runes S r force (Runes sep)).
Proof.
  unfold applySep, applySep_in. f_equal. apply applySep_loop.
  - apply NoDup_elements.
  - intros i. apply elem_of_elements.
Qed.

Lemma subst_runes_valid (S : gset nat) (r : N) (force : bool) (rs : list N) :
  ValidRune r = true -> valid_runes rs -> valid_runes (subst_runes S r force rs).
Proof.
  intros Hr Hrs. apply Forall_lookup. intros j y.
  rewrite subst_runes_lookup. unfold put.
  destruct (rs !! j) as [x |] eqn:Hx; [| by destruct (decide _)].
  assert (ValidRune x = true) by (eapply Forall_lookup in Hrs; eauto).
  destruct (decide _); simpl; [destruct (force || _) |]; congruence.
Qed.

Lemma applySep_Runes (S : gset nat) (sep : list N) (r : N) (force : bool) :
  ValidRune r = true ->
  Runes (applySep S sep r force) = subst_runes S r force (Runes sep).
Proof.
  intros Hr. rewrite applySep_bytes. apply Runes_encode.
  apply subst_runes_valid; [exact Hr | apply Runes_valid].
Qed.

(** A second pass without [force] finds no sentinel left at a separator
    column. *)
Lemma subst_runes_again (S : gset nat) (r : N) (rs : list N) (k : nat) :
  r <> termChar ->
  subst_runes S r false (subst_runes S r false rs ++ replicate k space)
  = subst_runes S r false rs ++ replicate k space.
Proof.
  intros Hr. apply list_eq. intros j.
  rewrite subst_runes_lookup. destruct (decide (j ∈ S)) as [Hj | Hj]; [| reflexivity].
  destruct (decide (j < length rs)%nat) as [Hlt | Hge].
  - rewrite lookup_app_l by (rewrite subst_runes_length; exact Hlt).
    rewrite subst_runes_lookup, decide_True by exact Hj.
    destruct (rs !! j) as [x |]; [| reflexivity]. simpl. f_equal.
    unfold put. simpl.
    destruct (x =? termChar) eqn:Hx.
    + destruct (r =? termChar) eqn:Hr'; [apply N.eqb_eq in Hr'; done | reflexivity].
    + rewrite Hx. reflexivity.
  - rewrite lookup_app_r by (rewrite subst_runes_length; lia).
    destruct (replicate k space !! _) as [x |] eqn:Hx; [| reflexivity].
    apply lookup_replicate in Hx as [-> _]. reflexivity.
Qed.

End ApplySepFacts.

(** ** The scan of the aligned lines *)

Module ScanFacts.
Import Utf8 Utf8Facts RunesFacts.

Lemma mark_spec (rs : list N) (i : nat) (seps : gset nat) (j : nat) :
  j ∈ mark i rs seps <-> j ∈ seps \/ exists k, j = (i + k)%nat /\ rs !! k = Some termChar.
Proof.
  revert i seps. induction rs as [| r rs IH]; intros i seps; simpl.
  - split; [by left | intros [H | (k & _ & H)]; [exact H | done]].
  - rewrite IH. split.
    + intros [H | (k & -> & Hk)].
      * destruct (r =? termChar) eqn:Hr; [| by left].
        apply N.eqb_eq in Hr. subst r.
        apply elem_of_union in H as [->%elem_of_singleton | H]; [| by left].
        right. exists 0%nat. split; [lia | reflexivity].
      * right. exists (S k). split; [lia | exact Hk].
    + intros [H | (k & -> & Hk)].
      * left. destruct (r =? termChar); [apply elem_of_union; by right | exact H].
      * destruct k as [| k]; simpl in Hk.
        -- left. inversion Hk; subst. simpl.
           replace (i + 0)%nat with i by lia.
           apply elem_of_union. left. by apply elem_of_singleton.
        -- right. exists k. split; [lia | exact Hk].
Qed.

Lemma sentinel_columns_spec (rs : list N) (j : nat) :
  j ∈ sentinel_columns rs <-> rs !! j = Some termChar.
Proof.
  unfold sentinel_columns. rewrite elem_of_list_to_set, list_elem_of_filter, elem_of_seq.
  split; [by intros [H _] |].
  intros H. split; [exact H |]. apply lookup_lt_Some in H. lia.
Qed.

Lemma mark_union (rs : list N) (seps : gset nat) :
  mark 0 rs seps = seps ∪ sentinel_columns rs.
Proof.
  apply set_eq. intros j.
  rewrite mark_spec, elem_of_union, sentinel_columns_spec.
  split; (intros [H | H]; [by left | right]).
  - destruct H as (k & -> & H). exact H.
  - exists j. split; [reflexivity | exact H].
Qed.

Lemma scan_from (lines : list (list N)) (m : nat) (seps : gset nat) :
  foldl scan_line (m, seps) lines
  = (Nat.max m (max_list (widths lines)), seps ∪ all_sentinel_columns lines).
Proof.
  revert m seps. induction lines as [| line lines IH]; intros m seps.
  - unfold all_sentinel_columns. simpl. f_equal; [lia |].
    by rewrite (right_id_L ∅ (∪)).
  - cbn [foldl]. unfold scan_line at 2. rewrite IH, mark_union.
    unfold widths, all_sentinel_columns. cbn [map max_list union_list].
    f_equal.
    + unfold id. destruct (Nat.ltb_spec m (length (Runes line))); lia.
    + cbn [foldr]. by rewrite (assoc_L (∪)).
Qed.

Lemma scan_spec (lines : list (list N)) :
  scan lines = (max_list (widths lines), all_sentinel_columns lines).
Proof.
  unfold scan. rewrite scan_from. simpl. by rewrite (left_id_L ∅ (∪)).
Qed.

Lemma elem_of_all_sentinel_columns (lines : list (list N)) (j : nat) :
  j ∈ all_sentinel_columns lines
  <-> exists line, line ∈ lines /\ Runes line !! j = Some termChar.
Proof.
  unfold all_sentinel_columns. rewrite elem_of_union_list. split.
  - intros (X & (line & -> & Hl)%list_elem_of_fmap & Hj).
    exists line. split; [exact Hl |]. by apply sentinel_columns_spec.
  - intros (line & Hl & Hj). exists (sentinel_columns (Runes line)). split.
    + apply list_elem_of_fmap. by exists line.
    + by apply sentinel_columns_spec.
Qed.

Lemma render_width_spec (outbuf : list N) :
  render_width outbuf = S (max_list (widths (split_lines outbuf))).
Proof. unfold render_width. rewrite scan_spec. reflexivity. Qed.

Lemma separator_columns_spec (outbuf : list N) :
  separator_columns outbuf = all_sentinel_columns (split_lines outbuf).
Proof. unfold separator_columns. rewrite scan_spec. reflexivity. Qed.

(** Every line is shorter than the render width. *)
Lemma line_lt_render_width (outbuf line : list N) :
  line ∈ split_lines outbuf -> (length (Runes line) < render_width outbuf)%nat.
Proof.
  intros Hl. rewrite render_width_spec.
  assert (length (Runes line) ∈ widths (split_lines outbuf)) as H.
  { unfold widths. apply list_elem_of_fmap. by exists line. }
  apply max_list_elem_of_le in H. lia.
Qed.

(** Every separator column lies inside the rules. *)
Lemma separator_lt_render_width (outbuf : list N) (j : nat) :
  j ∈ separator_columns outbuf -> (j < render_width outbuf)%nat.
Proof.
  rewrite separator_columns_spec, elem_of_all_sentinel_columns.
  intros (line & Hl & Hj). apply lookup_lt_Some in Hj.
  pose proof (line_lt_render_width _ _ Hl). lia.
Qed.

(** [bytes.Split] never returns an empty slice of pieces. *)
Lemma Split_nonempty (sep : N) (s : list N) : Bytes.Split sep s <> [].
Proof.
  destruct s as [| b t]; simpl; [done |].
  destruct (b =? sep); [done |]. destruct (Bytes.Split sep t); done.
Qed.

End ScanFacts.

(** ** What the renderer writes *)

Module RenderFacts.
Import Utf8 Utf8Facts RunesFacts AsciiFacts ApplySepFacts ScanFacts.

Ltac glyph_ok := repeat split; (reflexivity || discriminate).

Lemma Repeat_encode (h : N) (n : nat) :
  Bytes.Repeat (encode [h]) n = encode (replicate n h).
Proof.
  unfold Bytes.Repeat, encode. induction n as [| n IH]; [reflexivity |].
  simpl in *. rewrite IH, app_nil_r. reflexivity.
Qed.

Lemma Repeat_space (n : nat) : Bytes.Repeat [space] n = encode (replicate n space).
Proof. rewrite <- Repeat_encode. reflexivity. Qed.

Lemma valid_runes_replicate (n : nat) (r : N) :
  ValidRune r = true -> valid_runes (replicate n r).
Proof. intros H. apply Forall_replicate. exact H. Qed.

Lemma Sprintf_encode (pre rs post : list N) :
  Sprintf pre (encode rs) post = encode (pre ++ rs ++ post).
Proof. unfold Sprintf. by rewrite !encode_app. Qed.

Lemma subst_runes_elem (seps : gset nat) (r : N) (force : bool) (rs : list N) (x : N) :
  x ∈ subst_runes seps r force rs -> x = r \/ x ∈ rs.
Proof.
  intros [j Hj]%list_elem_of_lookup. rewrite subst_runes_lookup in Hj.
  destruct (rs !! j) as [y |] eqn:Hy; [| by destruct (decide _)].
  assert (y ∈ rs) by (eapply list_elem_of_lookup_2; exact Hy).
  destruct (decide _); simpl in Hj; inversion Hj; subst; [| by right].
  unfold put. destruct (force || _); [by left | by right].
Qed.

Section Writes.
Variables (seps : gset nat) (w : nat).

(** **** The bytes of a write are the encoding of its code points *)

Lemma rule_bytes (left h j right : N) :
ValidRune h = true ->
rule w seps left h j right = encode (rule_runes seps w left h j right).
Proof.
intros Hh. unfold rule, rule_runes.
rewrite applySep_bytes, Repeat_encode.
rewrite (Runes_encode (replicate w h)) by (by apply valid_runes_replicate).
apply Sprintf_encode.
Qed.

Lemma fill_encode (rs : list N) :
valid_runes rs -> (length rs < w)%nat ->
fill w (encode rs) = encode (rs ++ replicate (w - length rs) space).
Proof.
intros Hrs Hlt. unfold fill. rewrite Runes_encode by exact Hrs.
destruct (Nat.ltb_spec (length rs) w) as [_ | H]; [| lia].
rewrite Repeat_space, encode_app. reflexivity.
Qed.

(** The line as left by lines 160-163 (and 150-153, 170-173). *)
Lemma filled_line (v : N) (line : list N) :
ValidRune v = true -> (length (Runes line) < w)%nat ->
fill w (applySep seps line v false)
= encode (subst_runes seps v false (Runes line)
          ++ replicate (w - length (Runes line)) space).
Proof.
intros Hv Hlt. rewrite applySep_bytes, fill_encode.
- rewrite subst_runes_length. reflexivity.
- apply subst_runes_valid; [exact Hv | apply Runes_valid].
- rewrite subst_runes_length. exact Hlt.
Qed.

Lemma filled_valid (v : N) (line : list N) :
ValidRune v = true ->
valid_runes (subst_runes seps v false (Runes line)
             ++ replicate (w - length (Runes line)) space).
Proof.
intros Hv. apply Forall_app. split.
- apply subst_runes_valid; [exact Hv | apply Runes_valid].
- by apply valid_runes_replicate.
Qed.

Lemma row_bytes (v : N) (line : list N) :
ValidRune v = true -> (length (Runes line) < w)%nat ->
Sprintf [v; space] (fill w (applySep seps line v false)) [v; newline]
= encode (row_runes seps w v line).
Proof.
intros Hv Hlt. rewrite filled_line by assumption.
rewrite Sprintf_encode. unfold row_runes. by rewrite <- !app_assoc.
Qed.

(** The header line goes through [applySep] a second time (line 157),
  which changes nothing. *)
Lemma header_bytes (v : N) (line : list N) :
ValidRune v = true -> v <> termChar -> (length (Runes line) < w)%nat ->
Sprintf [v; space]
        (applySep seps (fill w (applySep seps line v false)) v false)
        [v; newline]
= encode (row_runes seps w v line).
Proof.
intros Hv Hne Hlt. rewrite filled_line by assumption.
rewrite applySep_bytes, Runes_encode by (by apply filled_valid).
rewrite subst_runes_again by exact Hne.
rewrite Sprintf_encode. unfold row_runes. by rewrite <- !app_assoc.
Qed.

Lemma emit_encoded (header rowlines : bool) (n : nat) (line : list N) :
(length (Runes line) < w)%nat ->
emit header rowlines w seps n line
= encoded (emit_runes header rowlines seps w n line).
Proof.
intros Hlt. unfold encoded, emit, emit_runes, sepLine.
destruct n as [| n].
- destruct header; cbn [fmap list_fmap fst snd];
    rewrite ?rule_bytes, ?row_bytes, ?header_bytes by done; reflexivity.
- destruct rowlines; [destruct ((header && _) || negb header)%bool |];
    cbn [andb app fmap list_fmap fst snd];
    rewrite ?rule_bytes, ?row_bytes by done; reflexivity.
Qed.

(** **** The shape of the code points *)

Lemma rule_runes_length (left h j right : N) :
length (rule_runes seps w left h j right) = (w + 4)%nat.
Proof.
unfold rule_runes. rewrite !length_app, subst_runes_length, length_replicate.
simpl. lia.
Qed.

Lemma row_runes_length (v : N) (line : list N) :
(length (Runes line) <= w)%nat -> length (row_runes seps w v line) = (w + 4)%nat.
Proof.
intros Hle. unfold row_runes.
rewrite !length_app, subst_runes_length, length_replicate. simpl. lia.
Qed.

(** A rule has its junction at every separator column. *)
Lemma rule_runes_junction (left h j right : N) (i : nat) :
i ∈ seps -> (i < w)%nat ->
rule_runes seps w left h j right !! (2 + i)%nat = Some j.
Proof.
intros Hi Hlt. unfold rule_runes.
rewrite lookup_app_r by (simpl; lia).
replace (2 + i - length [left; h])%nat with i by (simpl; lia).
rewrite lookup_app_l by (rewrite subst_runes_length, length_replicate; exact Hlt).
rewrite subst_runes_lookup, decide_True by exact Hi.
rewrite lookup_replicate_2 by exact Hlt. reflexivity.
Qed.

(** Between the junctions a rule is the horizontal glyph. *)
Lemma rule_runes_between (left h j right : N) (i : nat) :
i ∉ seps -> (i < w)%nat ->
rule_runes seps w left h j right !! (2 + i)%nat = Some h.
Proof.
intros Hi Hlt. unfold rule_runes.
rewrite lookup_app_r by (simpl; lia).
replace (2 + i - length [left; h])%nat with i by (simpl; lia).
rewrite lookup_app_l by (rewrite subst_runes_length, length_replicate; exact Hlt).
rewrite subst_runes_lookup, decide_False by exact Hi.
apply lookup_replicate_2. exact Hlt.
Qed.

(** A sentinel of the line shows as the bar. *)
Lemma row_runes_sentinel (v : N) (line : list N) (i : nat) :
i ∈ seps -> Runes line !! i = Some termChar ->
row_runes seps w v line !! (2 + i)%nat = Some v.
Proof.
intros Hi Hs. unfold row_runes.
rewrite lookup_app_r by (simpl; lia).
replace (2 + i - length [v; space])%nat with i by (simpl; lia).
rewrite lookup_app_l
  by (rewrite subst_runes_length; eapply lookup_lt_Some; exact Hs).
rewrite subst_runes_lookup, decide_True, Hs by exact Hi. reflexivity.
Qed.

Lemma framed_rule (left h j right : N) :
glyph left -> glyph h -> glyph j -> glyph right ->
framed w (rule_runes seps w left h j right).
Proof.
intros (Hl & Hl' & _) (Hh & Hh' & _) (Hj & Hj' & _) (Hr & Hr' & _).
exists ([left; h] ++ subst_runes seps j true (replicate w h) ++ [right]).
split; [unfold rule_runes; by rewrite <- !app_assoc |].
split; [rewrite !length_app, subst_runes_length, length_replicate; simpl; lia |].
split.
- rewrite !elem_of_app, !elem_of_cons, !elem_of_nil.
  intros [[H | [H | []]] | [[H | H]%subst_runes_elem | [H | []]]]; try done.
  apply elem_of_replicate_inv in H. done.
- apply Forall_app. split; [repeat constructor; assumption |].
  apply Forall_app. split; [| repeat constructor; assumption].
  apply subst_runes_valid; [exact Hj | by apply valid_runes_replicate].
Qed.

Lemma framed_row (v : N) (line : list N) :
glyph v -> (length (Runes line) <= w)%nat -> newline ∉ line ->
framed w (row_runes seps w v line).
Proof.
intros (Hv & Hv' & _) Hle Hnl.
exists ([v; space] ++ subst_runes seps v false (Runes line)
        ++ replicate (w - length (Runes line)) space ++ [v]).
split; [unfold row_runes; by rewrite <- !app_assoc |].
split; [rewrite !length_app, subst_runes_length, length_replicate; simpl; lia |].
split.
- rewrite !elem_of_app, !elem_of_cons, !elem_of_nil.
  intros [[H | [H | []]] | [[H | H]%subst_runes_elem | [H | [H | []]]]]; try done.
  + apply Hnl, Runes_ascii; [reflexivity | exact H].
  + apply elem_of_replicate_inv in H. done.
- apply Forall_app. split; [repeat constructor; assumption |].
  rewrite app_assoc. apply Forall_app. split; [by apply filled_valid |].
  repeat constructor; assumption.
Qed.

Lemma framed_emit_runes (header rowlines : bool) (n : nat) (line : list N) :
(length (Runes line) <= w)%nat -> newline ∉ line ->
Forall (fun d => framed w d.2) (emit_runes header rowlines seps w n line).
Proof.
intros Hle Hnl. unfold emit_runes.
destruct n as [| n]; [destruct header | destruct (rowlines && _)];
  repeat constructor; cbn [snd];
  (apply framed_rule || apply framed_row); (assumption || glyph_ok).
Qed.

Lemma junction_at_emit_runes (header rowlines : bool) (n : nat) (line : list N)
  (i : nat) :
i ∈ seps -> (i < w)%nat ->
Forall (fun d => junction_at header i d.1 d.2)
       (emit_runes header rowlines seps w n line).
Proof.
intros Hi Hlt. unfold emit_runes.
destruct n as [| n]; [destruct header | destruct (rowlines && _)];
  repeat constructor; unfold junction_at; cbn [fst snd junction];
  auto using rule_runes_junction.
Qed.
End Writes.

Lemma framed_valid (w : nat) (rs : list N) : framed w rs -> valid_runes rs.
Proof.
  intros (body & -> & _ & _ & Hv). apply Forall_app. split; [exact Hv |].
  by repeat constructor.
Qed.

Lemma fmap_concat_imap {A B C : Type} (g : B -> C) (l : list A)
    (f : nat -> A -> list B) (h : nat -> A -> list C) :
  (forall n x, l !! n = Some x -> g <$> f n x = h n x) ->
  g <$> concat (imap f l) = concat (imap h l).
Proof.
  revert f h. induction l as [| x l IH]; intros f h Hfh; [reflexivity |].
  rewrite !imap_cons. cbn [concat]. rewrite fmap_app. f_equal.
  - apply (Hfh 0%nat). reflexivity.
  - apply IH. intros n y Hy. apply (Hfh (S n)). exact Hy.
Qed.

(** What the renderer writes is the encoding of the box of the aligned
    lines. *)
Lemma render_encoded (header rowlines : bool) (outbuf : list N) :
  render header rowlines outbuf
  = encoded (box_runes header rowlines (separator_columns outbuf)
                       (render_width outbuf) (split_lines outbuf)).
Proof.
  unfold encoded, render, emit_all, box_runes, bottom.
  rewrite fmap_app. f_equal.
  - symmetry. apply fmap_concat_imap. intros n line Hl. symmetry.
    apply emit_encoded, line_lt_render_width.
    eapply list_elem_of_lookup_2. exact Hl.
  - cbn [fmap list_fmap fst snd]. rewrite rule_bytes by done. reflexivity.
Qed.

(** Every write of the box is a framed line. *)
Lemma box_runes_framed (header rowlines : bool) (outbuf : list N) :
  Forall (fun d => framed (render_width outbuf) d.2)
         (box_runes header rowlines (separator_columns outbuf)
                    (render_width outbuf) (split_lines outbuf)).
Proof.
  unfold box_runes. apply Forall_app. split.
  - apply Forall_concat, Forall_lookup.
    intros n cs [line [Hl ->]]%list_lookup_imap_Some.
    apply list_elem_of_lookup_2 in Hl.
    apply framed_emit_runes.
    + by apply Nat.lt_le_incl, line_lt_render_width.
    + eapply Split_pieces. exact Hl.
  - repeat constructor. apply framed_rule; glyph_ok.
Qed.

Lemma decoded_encoded (writes : list (Site * list N)) :
  Forall (fun d => valid_runes d.2) writes -> decoded (encoded writes) = writes.
Proof.
  unfold decoded, encoded. induction 1 as [| [site rs] writes Hv _ IH]; [reflexivity |].
  cbn [fmap list_fmap fst snd] in *. rewrite Runes_encode by exact Hv.
  f_equal. exact IH.
Qed.

(** The writes of the renderer, decoded, are the box of the aligned
    lines. *)
Lemma render_decoded (header rowlines : bool) (outbuf : list N) :
  decoded (render header rowlines outbuf)
  = box_runes header rowlines (separator_columns outbuf) (render_width outbuf)
              (split_lines outbuf).
Proof.
  rewrite render_encoded. apply decoded_encoded.
  eapply Forall_impl; [apply box_runes_framed |].
  intros d. apply framed_valid.
Qed.

End RenderFacts.

Import Utf8 Utf8Facts RunesFacts AsciiFacts ApplySepFacts ScanFacts RenderFacts.

(** ** Marker injection *)

Lemma align_right_test (flags : N) :
  (N.land flags tabwriter.AlignRight =? tabwriter.AlignRight) = align_right flags.
Proof.
  unfold align_right, tabwriter.AlignRight. change 4 with (2 ^ 2).
  destruct (N.testbit flags 2) eqn:Hb.
  - apply N.eqb_eq, N.bits_inj. intros i.
    rewrite N.land_spec, N.pow2_bits_eqb.
    destruct (N.eqb_spec 2 i) as [<- | _]; [by rewrite Hb | apply andb_false_r].
  - apply N.eqb_neq. intros H.
    assert (N.testbit (N.land flags (2 ^ 2)) 2 = true) as Hbit
      by (rewrite H; apply N.pow2_bits_true).
    rewrite N.land_spec, Hb in Hbit. discriminate.
Qed.

Lemma Replace_cons (b : N) (bs : list N) (old : N) (new : list N) :
  Bytes.Replace (b :: bs) old new
  = (if b =? old then new else [b]) ++ Bytes.Replace bs old new.
Proof. reflexivity. Qed.

(** C1, as the code has it: every tab of the raw input is replaced, by
    space, marker, space, tab when the align-right flag is active and by
    tab, marker, space otherwise; the pad of the two sequences is the
    space byte whatever [-padchar] is, and every other byte is kept. *)
Theorem inject_pads_with_space (flags : N) (bs : list N) :
  inject flags bs = inject_spec space (align_right flags) bs.
Proof.
  unfold inject. rewrite align_right_test.
  destruct (align_right flags); induction bs as [| b bs IH];
    try reflexivity; rewrite Replace_cons, IH; reflexivity.
Qed.

(** C1 fails as stated: with [-padchar .] the bytes put in for a tab are
    tab, marker, space, not tab, marker, dot. *)
Lemma inject_pad_counterexample :
  padchar dotted = [0x2e]
  /\ inject (flags dotted) [tab] = [tab; termChar; space]
  /\ inject (flags dotted) [tab] <> inject_spec 0x2e (align_right (flags dotted)) [tab].
Proof. repeat split. discriminate. Qed.

(** ** The separator column set *)

(** C2, as the code has it: the separator columns are one set for the
    whole output, the union over all aligned lines of the code-point
    indices at which the sentinel stands; every write of the renderer is
    made with this one set; each line's sentinel columns are part of it,
    so the set has at least as many columns as any line has sentinels. *)
Theorem separator_columns_global (outbuf : list N) :
  separator_columns outbuf
  = ⋃ (map (fun line => sentinel_columns (Runes line)) (split_lines outbuf))
  /\ (forall header rowlines,
        render header rowlines outbuf
        = emit_all header rowlines (render_width outbuf) (separator_columns outbuf)
                   (split_lines outbuf))
  /\ Forall (fun line =>
               sentinel_columns (Runes line) ⊆ separator_columns outbuf
               /\ (size (sentinel_columns (Runes line))
                   <= size (separator_columns outbuf))%nat)
            (split_lines outbuf).
Proof.
  split; [apply separator_columns_spec | split; [reflexivity |]].
  apply Forall_forall. intros line Hl.
  assert (sentinel_columns (Runes line) ⊆ separator_columns outbuf) as Hsub.
  { intros j Hj. rewrite separator_columns_spec.
    apply elem_of_all_sentinel_columns.
    exists line. split; [exact Hl | by apply sentinel_columns_spec]. }
  split; [exact Hsub | by apply subseteq_size].
Qed.

(** ** Glyph substitution *)

(** C4: the code points of [applySep]'s result are those of the line,
    except that a separator column inside the line holds the glyph when
    [force] is set or when the code point there was the sentinel. *)
Theorem applySep_substitutes (separators : gset nat) (sep : list N) (r : N)
    (force : bool) :
  ValidRune r = true ->
  Runes (applySep separators sep r force)
  = imap (fun i x =>
            if bool_decide (i ∈ separators) && (force || (x =? termChar)) then r else x)
         (Runes sep).
Proof. intros Hr. rewrite applySep_Runes by exact Hr. reflexivity. Qed.

Lemma applySep_substitutes_witness :
  ValidRune Glyph.light_v = true
  /\ Runes (applySep {[ 1%nat ]} [0x61; termChar; 0xe2; 0x94; 0x80; termChar]
                     Glyph.light_v false)
     = [0x61; Glyph.light_v; Glyph.light_h; termChar].
Proof.
  split; [reflexivity |].
  rewrite (applySep_substitutes {[ 1%nat ]} _ Glyph.light_v false eq_refl).
  reflexivity.
Defined.

(** ** Without -box *)



(** ** The -flags argument *)

Lemma Set_loop_recognized (v : string) (b : N) (names : list string) (t : N) :
  flagNames !! v = Some b ->
  Set_loop v names t = inr (if names is [] then t else N.lor t b).
Proof.
  intros Hv. revert t. induction names as [| name names IH]; intros t; [reflexivity |].
  simpl. rewrite Hv, IH. destruct names; [reflexivity |].
  rewrite <- N.lor_assoc, N.lor_diag. reflexivity.
Qed.

(** What [Set] does: it succeeds exactly when the whole argument is one
    flag name, and otherwise reports the first name of the list. *)
Lemma tabFlags_Set_whole (t : N) (v : string) :
  tabFlags_Set t v
  = match flagNames !! v with
    | Some b => inr (N.lor t b)
    | None => inl (UnrecognizedFlag (default v (head (Strings.Split ","%char v))))
    end.
Proof.
  unfold tabFlags_Set. destruct (flagNames !! v) as [b |] eqn:Hv.
  - rewrite (Set_loop_recognized v b) by exact Hv.
    destruct (Strings.Split _ v) eqn:Hs; [| reflexivity].
    destruct v as [| c v]; simpl in Hs; [done |].
    destruct (Ascii.eqb c _); [done |]. destruct (Strings.Split _ v); done.
  - destruct (Strings.Split _ v) as [| name names] eqn:Hs.
    + destruct v as [| c v]; simpl in Hs; [done |].
      destruct (Ascii.eqb c _); [done |]. destruct (Strings.Split _ v); done.
    + simpl. rewrite Hv. reflexivity.
Qed.

(** C8 fails on the code: both names of [align-right,debug] are
    recognized, and looking each up gives the word 4|32, but [Set] looks
    up the whole argument and reports [align-right] as unrecognized. *)
Theorem tabFlags_Set_rejects_list :
  Strings.Split ","%char "align-right,debug" = ["align-right"; "debug"]%string
  /\ flagNames !! "align-right"%string = Some tabwriter.AlignRight
  /\ flagNames !! "debug"%string = Some tabwriter.Debug
  /\ tabFlags_Set_spec 0 "align-right,debug" = inr 36
  /\ tabFlags_Set 0 "align-right,debug" = inl (UnrecognizedFlag "align-right").
Proof. repeat split; vm_compute; reflexivity. Qed.

(** ** The writes of the boxed renderer *)

Lemma data_lines_decoded (writes : list (Site * list N)) :
  data_lines writes = snd <$> filter (fun c => is_data c = true) (decoded writes).
Proof.
  unfold data_lines, decoded. induction writes as [| [site bs] writes IH]; [reflexivity |].
  cbn [fmap list_fmap]. rewrite !filter_cons. unfold is_data at 1 3. cbn [fst snd].
  destruct (decide _); cbn [map fmap list_fmap snd]; rewrite IH; reflexivity.
Qed.

Lemma filter_concat_imap {A B C : Type} (P : B -> Prop) `{!forall x, Decision (P x)}
    (g : B -> C) (l : list A) (f : nat -> A -> list B) (h : nat -> A -> C) :
  (forall n x, l !! n = Some x -> g <$> filter P (f n x) = [h n x]) ->
  g <$> filter P (concat (imap f l)) = imap h l.
Proof.
  revert f h. induction l as [| x l IH]; intros f h Hfh; [reflexivity |].
  rewrite !imap_cons. cbn [concat]. rewrite filter_app, fmap_app.
  rewrite (Hfh 0%nat x eq_refl). cbn [app]. f_equal.
  apply IH. intros n y Hy. apply (Hfh (S n)). exact Hy.
Qed.

Lemma data_of_emit_runes (header rowlines : bool) (seps : gset nat) (w n : nat)
    (line : list N) :
  snd <$> filter (fun c => is_data c = true) (emit_runes header rowlines seps w n line)
  = [row_runes seps w (bar header n) line].
Proof.
  destruct n as [| n]; unfold emit_runes, bar.
  - destruct header; reflexivity.
  - destruct (rowlines && _); reflexivity.
Qed.

(** The lines of the table, as written: line [n] between its bars, with
    its sentinels turned into bars and filled up with spaces. *)
Lemma data_lines_render (header rowlines : bool) (outbuf : list N) :
  data_lines (render header rowlines outbuf)
  = imap (fun n line =>
            row_runes (separator_columns outbuf) (render_width outbuf) (bar header n) line)
         (split_lines outbuf).
Proof.
  rewrite data_lines_decoded, render_decoded. unfold box_runes.
  rewrite filter_app, fmap_app. cbn [filter]. rewrite app_nil_r.
  apply filter_concat_imap. intros n line _. apply data_of_emit_runes.
Qed.

Lemma interior_row_runes (seps : gset nat) (w : nat) (v : N) (line : list N) :
  (length (Runes line) <= w)%nat ->
  interior (row_runes seps w v line)
  = space :: subst_runes seps v false (Runes line)
          ++ replicate (w - length (Runes line)) space.
Proof.
  intros Hle. unfold interior. rewrite row_runes_length by exact Hle.
  unfold row_runes. cbn [app drop]. rewrite app_assoc.
  replace (w + 4 - 3)%nat with (S w) by lia. cbn [take]. f_equal.
  apply take_app_length'.
  rewrite length_app, subst_runes_length, length_replicate. lia.
Qed.

(** C3, as the code has it: every line is filled up with spaces (the
    byte 0x20, whatever [-padchar] is) to Render Width code points and
    written as bar, space, filled line, bar; so the code points strictly
    between the two bars are one space followed by Render Width code
    points, Render Width + 1 in all, whatever the bytes of the line. *)
Theorem data_lines_filled (header rowlines : bool) (outbuf : list N) :
  let seps := separator_columns outbuf in
  let w := render_width outbuf in
  w = S (max_list (map (fun line => length (Runes line)) (split_lines outbuf)))
  /\ data_lines (render header rowlines outbuf)
     = imap (fun n line => row_runes seps w (bar header n) line) (split_lines outbuf)
  /\ interior <$> data_lines (render header rowlines outbuf)
     = imap (fun n line =>
               space :: subst_runes seps (bar header n) false (Runes line)
                     ++ replicate (w - length (Runes line)) space)
            (split_lines outbuf)
  /\ Forall (fun rs => length (interior rs) = S w)
            (data_lines (render header rowlines outbuf)).
Proof.
  intros seps w. split; [apply render_width_spec |].
  split; [apply data_lines_render |]. rewrite data_lines_render. split.
  - rewrite fmap_imap. apply imap_ext. intros n line Hl. cbn [compose].
    apply interior_row_runes.
    apply Nat.lt_le_incl, line_lt_render_width.
    eapply list_elem_of_lookup_2. exact Hl.
  - apply Forall_lookup. intros n rs [line [Hl ->]]%list_lookup_imap_Some.
    assert (length (Runes line) < w)%nat as Hlt
      by (apply line_lt_render_width; eapply list_elem_of_lookup_2; exact Hl).
    rewrite interior_row_runes by lia. cbn [length].
    rewrite length_app, subst_runes_length, length_replicate. lia.
Qed.

(** C3 fails as stated: for the aligned text [ab], [c] the render width
    is 3, yet four code points stand between the bars of either line. *)
Lemma visible_width_counterexample :
  render_width [0x61; 0x62; newline; 0x63] = 3%nat
  /\ data_lines (render false false [0x61; 0x62; newline; 0x63])
     = [ [Glyph.light_v; space; 0x61; 0x62; space; Glyph.light_v; newline];
         [Glyph.light_v; space; 0x63; space; space; Glyph.light_v; newline] ]
  /\ (fun rs => length (interior rs))
       <$> data_lines (render false false [0x61; 0x62; newline; 0x63])
     = [4%nat; 4%nat].
Proof. repeat split; vm_compute; reflexivity. Qed.

Lemma separators_in_rule (outbuf : list N) (left h j right : N) :
  set_Forall
    (fun i => rule_runes (separator_columns outbuf) (render_width outbuf)
                         left h j right !! (2 + i)%nat = Some j)
    (separator_columns outbuf).
Proof.
  intros i Hi. apply rule_runes_junction; [exact Hi |].
  by apply separator_lt_render_width.
Qed.

(** C5: with [-box -rowlines] and no header the writes are the top rule,
    the first row, then for every further row the light rule and the
    row, then the bottom rule; the light rule has the cross at every
    separator column. *)
Theorem rowlines_between_rows (outbuf : list N) :
  let seps := separator_columns outbuf in
  let w := render_width outbuf in
  let row_rule :=
    rule_runes seps w Glyph.light_v_right Glyph.light_h Glyph.light_cross
               Glyph.light_v_left in
  exists first rest,
    split_lines outbuf = first :: rest
    /\ decoded (render false true outbuf)
       = (TopRule, rule_runes seps w Glyph.light_down_right Glyph.light_h
                              Glyph.light_down_h Glyph.light_down_left)
         :: (Row, row_runes seps w Glyph.light_v first)
         :: concat ((fun line => [ (RowRule, row_rule);
                                   (Row, row_runes seps w Glyph.light_v line) ])
                      <$> rest)
         ++ [ (BottomRule, rule_runes seps w Glyph.light_up_right Glyph.heavy_h
                                      Glyph.light_up_h Glyph.light_up_left) ]
    /\ set_Forall (fun i => row_rule !! (2 + i)%nat = Some Glyph.light_cross) seps.
Proof.
  intros seps w row_rule.
  destruct (split_lines outbuf) as [| first rest] eqn:Hlines.
  { by apply Split_nonempty in Hlines. }
  exists first, rest. split; [reflexivity |]. split; [| apply separators_in_rule].
  rewrite render_decoded, Hlines. unfold box_runes. rewrite imap_cons.
  cbn [concat emit_runes app]. do 4 f_equal.
  rewrite <- imap_const. apply imap_ext. intros n line _. reflexivity.
Qed.

(** C9: every write of the boxed renderer - a rule of any kind, the
    header line, a row - is one line of stdout: it ends in the only
    newline it has, and before that it has Render Width + 3 code
    points. *)
Theorem writes_have_one_width (header rowlines : bool) (outbuf : list N) :
  Forall (fun c => exists body,
                     c.2 = body ++ [newline] /\ (newline ∉ body)
                     /\ length (Runes body) = (render_width outbuf + 3)%nat)
         (render header rowlines outbuf).
Proof.
  rewrite render_encoded. unfold encoded. apply Forall_fmap.
  eapply Forall_impl; [apply box_runes_framed |].
  intros [site rs] Hf. cbn [compose snd] in *.
  destruct Hf as (body & -> & Hlen & Hnl & Hv).
  exists (encode body). split; [by rewrite encode_app |]. split.
  - intros H. apply Hnl, encode_ascii; [reflexivity | exact H].
  - rewrite Runes_encode by exact Hv. exact Hlen.
Qed.

(** C10: a sentinel that stands in an aligned line - one that came with
    the raw input like any other - has its column in the separator set,
    every rule has its junction there, and the line shows its bar there. *)
Theorem sentinel_is_boundary (header rowlines : bool) (outbuf : list N) (n : nat)
    (line : list N) (i : nat) :
  split_lines outbuf !! n = Some line ->
  Runes line !! i = Some termChar ->
  let seps := separator_columns outbuf in
  let w := render_width outbuf in
  i ∈ seps
  /\ Forall (fun c => junction_at header i c.1 (Runes c.2)) (render header rowlines outbuf)
  /\ data_lines (render header rowlines outbuf) !! n
     = Some (row_runes seps w (bar header n) line)
  /\ row_runes seps w (bar header n) line !! (2 + i)%nat = Some (bar header n).
Proof.
  intros Hl Hs seps w.
  assert (i ∈ seps) as Hi.
  { unfold seps. rewrite separator_columns_spec. apply elem_of_all_sentinel_columns.
    exists line. split; [eapply list_elem_of_lookup_2; exact Hl | exact Hs]. }
  assert (i < w)%nat as Hlt by (by apply separator_lt_render_width).
  split; [exact Hi |]. split; [| split].
  - assert (Forall (fun d => junction_at header i d.1 d.2)
                   (decoded (render header rowlines outbuf))) as H.
    { rewrite render_decoded. unfold box_runes. apply Forall_app. split.
      - apply Forall_concat, Forall_lookup.
        intros m cs [l [_ ->]]%list_lookup_imap_Some.
        by apply junction_at_emit_runes.
      - repeat constructor. unfold junction_at. cbn [fst snd junction].
        by apply rule_runes_junction. }
    apply Forall_lookup. intros m c Hc.
    apply (proj1 (Forall_lookup _ _) H m (c.1, Runes c.2)).
    unfold decoded. rewrite list_lookup_fmap, Hc. reflexivity.
  - rewrite data_lines_render, list_lookup_imap, Hl. reflexivity.
  - by apply row_runes_sentinel.
Qed.

Lemma sentinel_is_boundary_witness :
  let outbuf := [0x61; termChar; 0x62; newline; 0x63] in
  split_lines outbuf !! 0%nat = Some [0x61; termChar; 0x62]
  /\ Runes [0x61; termChar; 0x62] !! 1%nat = Some termChar
  /\ 1%nat ∈ separator_columns outbuf
  /\ Forall (fun c => junction_at true 1 c.1 (Runes c.2)) (render true true outbuf)
  /\ data_lines (render true true outbuf) !! 0%nat
     = Some (row_runes (separator_columns outbuf) (render_width outbuf)
                       Glyph.heavy_v [0x61; termChar; 0x62])
  /\ row_runes (separator_columns outbuf) (render_width outbuf)
               Glyph.heavy_v [0x61; termChar; 0x62] !! 3%nat
     = Some Glyph.heavy_v.
Proof.
  intros outbuf. split; [reflexivity |]. split; [reflexivity |].
  exact (sentinel_is_boundary true true outbuf 0 [0x61; termChar; 0x62] 1
                              eq_refl eq_refl).
Defined.

(** A boxed run that the tabwriter survives ends with status 0 and has
    written the box of the tabwriter's output. *)
Lemma main_boxed (tw : Tabwriter) (cfg : Config) (stdin outbuf : list N) (pc : N) :
  box cfg = true -> padchar cfg = [pc] ->
  tw (mwidth cfg) (tabwidth cfg) (padding cfg) pc (flags cfg) (inject (flags cfg) stdin)
  = Some outbuf ->
  main tw cfg stdin
  = {| status := 0; stdout := boxed (header cfg) (rowlines cfg) outbuf |}.
Proof. intros Hbox Hpad Htw. unfold main. rewrite Hpad, Hbox. simpl. by rewrite Htw. Qed.

Lemma inject_nil (flags : N) : inject flags [] = [].
Proof. unfold inject. destruct (_ =? _); reflexivity. Qed.

(** C6, as the code has it: on empty stdin, the tabwriter having
    written nothing, the box has one blank row between the top rule and
    the bottom rule (a blank header block with [-header]). *)
Theorem empty_input_box (tw : Tabwriter) (cfg : Config) (pc : N) :
  box cfg = true -> padchar cfg = [pc] ->
  tw (mwidth cfg) (tabwidth cfg) (padding cfg) pc (flags cfg) [] = Some [] ->
  main tw cfg [] = {| status := 0; stdout := encode (empty_box (header cfg)) |}
  /\ fst <$> render (header cfg) (rowlines cfg) []
     = if header cfg then [TopRule; HeaderLine; HeaderRule; BottomRule]
       else [TopRule; Row; BottomRule].
Proof.
  intros Hbox Hpad Htw.
  rewrite (main_boxed tw cfg [] [] pc Hbox Hpad) by (by rewrite inject_nil).
  destruct (header cfg), (rowlines cfg); split; vm_compute; reflexivity.
Qed.

Lemma empty_input_box_witness :
  box boxed_only = true /\ padchar boxed_only = [space]
  /\ GoTabwriter.run 0%Z 8%Z 1%Z space 0 [] = Some []
  /\ main GoTabwriter.run boxed_only []
     = {| status := 0; stdout := encode (empty_box false) |}
  /\ fst <$> render false false [] = [TopRule; Row; BottomRule].
Proof.
  split; [reflexivity |]. split; [reflexivity |]. split; [reflexivity |].
  exact (empty_input_box GoTabwriter.run boxed_only space eq_refl eq_refl eq_refl).
Defined.

(** C6 fails as stated: on empty stdin the program writes three lines,
    and the one between the two rules is a row of the table. *)
Lemma empty_input_counterexample :
  stdout (main GoTabwriter.run boxed_only [])
  = encode [ Glyph.light_down_right; Glyph.light_h; Glyph.light_h;
             Glyph.light_down_left; newline;
             Glyph.light_v; space; space; Glyph.light_v; newline;
             Glyph.light_up_right; Glyph.heavy_h; Glyph.heavy_h;
             Glyph.light_up_left; newline ]
  /\ fst <$> render false false [] = [TopRule; Row; BottomRule]
  /\ data_lines (render false false [])
     = [ [Glyph.light_v; space; space; Glyph.light_v; newline] ].
Proof. repeat split; vm_compute; reflexivity. Qed.

(** C2 fails as stated: no line of the input has more than one tab, but
    the line without a tab ends the column, the tabwriter aligns the
    lines before and after it separately, and the set has two columns. *)
Lemma separator_count_counterexample :
  most_tabs ragged = 1%nat
  /\ GoTabwriter.run 0%Z 8%Z 1%Z space 0 (inject 0 ragged) = Some ragged_aligned
  /\ elements (separator_columns ragged_aligned) = [2%nat; 7%nat]
  /\ size (separator_columns ragged_aligned) = 2%nat.
Proof. repeat split; vm_compute; reflexivity. Qed.

(** ** Stdout as code points *)

Lemma concat_encoded (writes : list (Site * list N)) :
  concat (map snd (encoded writes)) = encode (concat (map snd writes)).
Proof.
  unfold encoded. induction writes as [| [site rs] writes IH]; [reflexivity |].
  cbn [fmap list_fmap map concat fst snd]. rewrite encode_app. f_equal. exact IH.
Qed.

(** In box mode stdout is the UTF-8 encoding of the box of the aligned
    lines. *)
Lemma boxed_encoded (header rowlines : bool) (outbuf : list N) :
  boxed header rowlines outbuf
  = encode (concat (map snd (box_runes header rowlines (separator_columns outbuf)
                                       (render_width outbuf) (split_lines outbuf)))).
Proof. unfold boxed. rewrite render_encoded. apply concat_encoded. Qed.

(** ** Runs *)

(** [a<TAB>b], [ccc<TAB>d] with [-box]: a box of two columns. *)
Example two_by_two_boxed :
  main GoTabwriter.run boxed_only two_by_two
  = {| status := 0;
       stdout := encode
         ([ Glyph.light_down_right; Glyph.light_h; Glyph.light_h; Glyph.light_h;
            Glyph.light_h; Glyph.light_h; Glyph.light_down_h; Glyph.light_h;
            Glyph.light_h; Glyph.light_h; Glyph.light_down_left; newline ]
          ++ [Glyph.light_v] ++ bytes_of " a   " ++ [Glyph.light_v]
             ++ bytes_of " b " ++ [Glyph.light_v; newline]
          ++ [Glyph.light_v] ++ bytes_of " ccc " ++ [Glyph.light_v]
             ++ bytes_of " d " ++ [Glyph.light_v; newline]
          ++ [ Glyph.light_up_right; Glyph.heavy_h; Glyph.heavy_h; Glyph.heavy_h;
               Glyph.heavy_h; Glyph.heavy_h; Glyph.light_up_h; Glyph.heavy_h;
               Glyph.heavy_h; Glyph.heavy_h; Glyph.light_up_left; newline ]) |}.
Proof. vm_compute. reflexivity. Qed.

(** A sentinel in the raw input, [a<0x0e>b] without any tab: the run
    succeeds and draws a column boundary where the sentinel stood. *)
Example raw_sentinel_boxed :
  main GoTabwriter.run boxed_only [0x61; termChar; 0x62]
  = {| status := 0;
       stdout := encode
         [ Glyph.light_down_right; Glyph.light_h; Glyph.light_h; Glyph.light_down_h;
           Glyph.light_h; Glyph.light_h; Glyph.light_down_left; newline;
           Glyph.light_v; space; 0x61; Glyph.light_v; 0x62; space;
           Glyph.light_v; newline;
           Glyph.light_up_right; Glyph.heavy_h; Glyph.heavy_h; Glyph.light_up_h;
           Glyph.heavy_h; Glyph.heavy_h; Glyph.light_up_left; newline ] |}.
Proof. vm_compute. reflexivity. Qed.

(** With [-padchar .] the tabwriter pads the cells with dots, the
    renderer the lines with spaces. *)
Example dotted_boxed :
  main GoTabwriter.run dotted (two_by_two ++ [newline] ++ bytes_of "e")
  = {| status := 0;
       stdout := encode
         ([ Glyph.light_down_right; Glyph.light_h; Glyph.light_h; Glyph.light_h;
            Glyph.light_h; Glyph.light_h; Glyph.light_down_h; Glyph.light_h;
            Glyph.light_h; Glyph.light_h; Glyph.light_down_left; newline ]
          ++ [Glyph.light_v] ++ bytes_of " a..." ++ [Glyph.light_v]
             ++ bytes_of " b " ++ [Glyph.light_v; newline]
          ++ [Glyph.light_v] ++ bytes_of " ccc." ++ [Glyph.light_v]
             ++ bytes_of " d " ++ [Glyph.light_v; newline]
          ++ [Glyph.light_v] ++ bytes_of " e       " ++ [Glyph.light_v; newline]
          ++ [ Glyph.light_up_right; Glyph.heavy_h; Glyph.heavy_h; Glyph.heavy_h;
               Glyph.heavy_h; Glyph.heavy_h; Glyph.light_up_h; Glyph.heavy_h;
               Glyph.heavy_h; Glyph.heavy_h; Glyph.light_up_left; newline ]) |}.
Proof. vm_compute. reflexivity. Qed.

(** * More of [ftable.go] *)

(** ** [init] and [tabFlags.Set] *)

Module FlagFacts.

Lemma flagNames_in_list_to_map (order : list (N * string)) :
  flagNames_in order = list_to_map (prod_swap <$> order).
Proof.
  unfold flagNames_in. induction order as [| [b n] order IH]; [reflexivity |].
  cbn [foldr fmap list_fmap]. rewrite IH. reflexivity.
Qed.

Lemma flag_names_NoDup : NoDup (prod_swap <$> flagBits).*1.
Proof. apply (bool_decide_eq_true_1 (NoDup _)). vm_compute. reflexivity. Qed.

Lemma flagNames_lookup (n : string) (b : N) :
  flagNames !! n = Some b <-> (b, n) ∈ flagBits.
Proof.
  change flagNames with (flagNames_in flagBits).
  rewrite flagNames_in_list_to_map.
  rewrite <- elem_of_list_to_map by apply flag_names_NoDup.
  rewrite list_elem_of_fmap. split.
  - intros ([b' n'] & [= -> ->] & H). exact H.
  - intros H. exists (b, n). split; [reflexivity | exact H].
Qed.


(** The loop of [String] keeps, in the order of the range, the names
    whose bits are all set. *)
Lemma String_loop_spec (ui : N) (bits : list (N * string)) (names : list string) :
  String_loop ui bits names
  = names ++ (filter (fun p => N.land ui p.1 = p.1) bits).*2.
Proof.
  revert names. induction bits as [| [b n] bits IH]; intros names.
  - simpl. by rewrite app_nil_r.
  - cbn [String_loop]. rewrite IH, filter_cons. cbn [fst].
    destruct (N.eqb_spec (N.land ui b) b) as [Heq | Hne].
    + rewrite decide_True by exact Heq. by rewrite <- app_assoc.
    + rewrite decide_False by exact Hne. reflexivity.
Qed.

(** Sorting forgets the order of what is sorted. *)
Lemma sort_Strings_Permutation (l1 l2 : list string) :
  l1 ≡ₚ l2 -> sort_Strings l1 = sort_Strings l2.
Proof.
  intros Hp. unfold sort_Strings.
  apply (Sorted_unique String.le); try apply Sorted_merge_sort; try apply _.
  by rewrite !merge_sort_Permutation.
Qed.

Lemma land_known (t b : N) (n : string) :
  (b, n) ∈ flagBits -> N.land (N.land t known_bits) b = N.land t b.
Proof.
  intros H. rewrite <- N.land_assoc. f_equal.
  unfold flagBits in H.
  repeat (apply elem_of_cons in H as [[= -> ->] | H]; [reflexivity |]).
  by apply elem_of_nil in H.
Qed.

Lemma filter_ext_elem {A : Type} (P Q : A -> Prop)
    `{!forall x, Decision (P x)} `{!forall x, Decision (Q x)} (l : list A) :
  (forall x, x ∈ l -> P x <-> Q x) -> filter P l = filter Q l.
Proof.
  induction l as [| x l IH]; intros Hpq; [reflexivity |].
  rewrite !filter_cons.
  assert (P x <-> Q x) as Hx by (apply Hpq, list_elem_of_here).
  rewrite IH by (intros y Hy; apply Hpq, list_elem_of_further, Hy).
  destruct (decide (P x)), (decide (Q x)); tauto || reflexivity.
Qed.

(** Only the six named bits of the word matter to [String]. *)
Lemma tabFlags_String_known (t : N) :
  tabFlags_String t = tabFlags_String (N.land t known_bits).
Proof.
  unfold tabFlags_String, tabFlags_String_in. rewrite !String_loop_spec.
  do 4 f_equal. apply filter_ext_elem. intros [b n] H. cbn [fst].
  by rewrite (land_known t b n).
Qed.

(** [strings.Split] undoes [strings.Join] when no element holds the
    separator. *)
Lemma Split_app_sep (c : ascii) (e rest : string) :
  (forall d, d ∈ list_ascii_of_string e -> d <> c) ->
  Strings.Split c (e ++ String c rest) = e :: Strings.Split c rest.
Proof.
  induction e as [| d e IH]; intros He; simpl.
  - by rewrite Ascii.eqb_refl.
  - destruct (Ascii.eqb_spec d c) as [-> | _].
    + exfalso. by apply (He c); [apply list_elem_of_here |].
    + rewrite IH; [reflexivity |].
      intros d' Hd'. apply He. simpl. by apply list_elem_of_further.
Qed.

Lemma Split_no_sep (c : ascii) (e : string) :
  (forall d, d ∈ list_ascii_of_string e -> d <> c) ->
  Strings.Split c e = [e].
Proof.
  induction e as [| d e IH]; intros He; simpl; [reflexivity |].
  destruct (Ascii.eqb_spec d c) as [-> | _].
  - exfalso. by apply (He c); [apply list_elem_of_here |].
  - rewrite IH; [reflexivity |].
    intros d' Hd'. apply He. simpl. by apply list_elem_of_further.
Qed.

Lemma Split_Join (c : ascii) (l : list string) :
  l <> [] ->
  Forall (fun e => forall d, d ∈ list_ascii_of_string e -> d <> c) l ->
  Strings.Split c (Join l (String c EmptyString)) = l.
Proof.
  intros Hne Hl. induction Hl as [| e l He Hl IH]; [done |].
  destruct l as [| e' l].
  - simpl. by apply Split_no_sep.
  - change (Join (e :: e' :: l) (String c EmptyString))
      with (e ++ String c (Join (e' :: l) (String c EmptyString)))%string.
    rewrite Split_app_sep by exact He. f_equal. by apply IH.
Qed.

(** No flag name holds a comma. *)
Lemma flag_names_comma_free :
  Forall (fun e => forall d, d ∈ list_ascii_of_string e -> d <> ","%char) flagBits.*2.
Proof.
  unfold flagBits. cbn [fmap list_fmap snd].
  repeat constructor; intros d Hd; cbn in Hd;
    repeat (apply elem_of_cons in Hd as [-> | Hd]; [discriminate |]);
    by apply elem_of_nil in Hd.
Qed.

Lemma tabFlags_Set_inr (t t' : N) (v : string) :
  tabFlags_Set t v = inr t' <-> exists b, (b, v) ∈ flagBits /\ t' = N.lor t b.
Proof.
  rewrite tabFlags_Set_whole. split.
  - destruct (flagNames !! v) as [b |] eqn:Hv; [| done].
    intros [= <-]. exists b. split; [by apply flagNames_lookup | reflexivity].
  - intros (b & Hb%flagNames_lookup & ->). by rewrite Hb.
Qed.

Lemma land_lor_absorb (a b : N) : N.land (N.lor a b) a = a.
Proof.
  apply N.bits_inj. intros i. rewrite N.land_spec, N.lor_spec.
  destruct (N.testbit a i), (N.testbit b i); reflexivity.
Qed.

End FlagFacts.

Import FlagFacts.

(** X1: [init] makes [flagNames] the inverse of [flagBits]: a name is
    mapped to a bit exactly when [flagBits] pairs that bit with that
    name, and no name is lost. *)
Theorem flagNames_inverts_flagBits :
  (forall n b, flagNames !! n = Some b <-> (b, n) ∈ flagBits)
  /\ size flagNames = length flagBits.
Proof. split; [apply flagNames_lookup | vm_compute; reflexivity]. Qed.

(** X2: the order in which [init] ranges over the map [flagBits] (Go
    leaves it open) does not change [flagNames]. *)
Theorem flagNames_any_order (order : list (N * string)) :
  order ≡ₚ flagBits -> flagNames_in order = flagNames.
Proof.
  intros Hp. change flagNames with (flagNames_in flagBits).
  rewrite !flagNames_in_list_to_map. symmetry.
  apply list_to_map_proper; [apply flag_names_NoDup |].
  by rewrite Hp.
Qed.

Lemma flagNames_any_order_witness :
  reverse flagBits ≡ₚ flagBits /\ flagNames_in (reverse flagBits) = flagNames.
Proof.
  split; [apply reverse_Permutation |].
  apply (flagNames_any_order (reverse flagBits)), reverse_Permutation.
Defined.

(** X3: [Set] succeeds exactly when its whole argument is one of the six
    flag names, and then the new word is the old one with that flag's
    bit set. *)
Theorem tabFlags_Set_succeeds_iff (t t' : N) (v : string) :
  tabFlags_Set t v = inr t' <-> exists b, (b, v) ∈ flagBits /\ t' = N.lor t b.
Proof. apply tabFlags_Set_inr. Qed.

(** X4: two [-flags] options accumulate: after [Set v1] and [Set v2]
    the word holds both bits, nothing that was set before is cleared, and
    the other order gives the same word. *)
Theorem tabFlags_Set_accumulates (t t1 t2 : N) (v1 v2 : string) :
  tabFlags_Set t v1 = inr t1 -> tabFlags_Set t1 v2 = inr t2 ->
  N.land t2 t = t /\ N.land t2 t1 = t1
  /\ exists t1', tabFlags_Set t v2 = inr t1' /\ tabFlags_Set t1' v1 = inr t2.
Proof.
  intros (b1 & Hb1 & ->)%tabFlags_Set_inr (b2 & Hb2 & ->)%tabFlags_Set_inr.
  split; [| split].
  - rewrite <- N.lor_assoc. apply land_lor_absorb.
  - apply land_lor_absorb.
  - exists (N.lor t b2). split.
    + apply tabFlags_Set_inr. by exists b2.
    + apply tabFlags_Set_inr. exists b1. split; [exact Hb1 |].
      rewrite <- !N.lor_assoc. f_equal. apply N.lor_comm.
Qed.

Lemma tabFlags_Set_accumulates_witness :
  tabFlags_Set 0 "align-right" = inr 4
  /\ tabFlags_Set 4 "debug" = inr 36
  /\ N.land 36 0 = 0 /\ N.land 36 4 = 4
  /\ exists t1', tabFlags_Set 0 "debug" = inr t1'
                 /\ tabFlags_Set t1' "align-right" = inr 36.
Proof.
  split; [reflexivity |]. split; [reflexivity |].
  exact (tabFlags_Set_accumulates 0 4 36 "align-right" "debug" eq_refl eq_refl).
Defined.


(** ** [tabFlags.String] *)

Lemma set_names_comma_free (t : N) :
  Forall (fun e => forall d, d ∈ list_ascii_of_string e -> d <> ","%char)
         (sort_Strings (filter (fun p => N.land t p.1 = p.1) flagBits).*2).
Proof.
  unfold sort_Strings. rewrite merge_sort_Permutation.
  apply Forall_forall. intros e ([b n] & -> & [_ H]%list_elem_of_filter)%list_elem_of_fmap.
  pose proof flag_names_comma_free as Hall.
  rewrite Forall_forall in Hall. apply Hall.
  apply list_elem_of_fmap. by exists (b, n).
Qed.

(** X5: the order in which [String] ranges over the map [flagBits] does
    not show in its result. *)
Theorem tabFlags_String_any_order (order : list (N * string)) (t : N) :
  order ≡ₚ flagBits -> tabFlags_String_in order t = tabFlags_String t.
Proof.
  intros Hp. unfold tabFlags_String, tabFlags_String_in.
  rewrite !String_loop_spec. cbn [app]. f_equal.
  apply sort_Strings_Permutation. by rewrite Hp.
Qed.

Lemma tabFlags_String_any_order_witness :
  reverse flagBits ≡ₚ flagBits
  /\ tabFlags_String_in (reverse flagBits) 36 = tabFlags_String 36.
Proof.
  split; [apply reverse_Permutation |].
  apply (tabFlags_String_any_order (reverse flagBits) 36), reverse_Permutation.
Defined.

(** X6: [String] is empty when no named bit is set; otherwise, split at
    the commas, it lists the names of the flags whose bit is set in the
    word, each once, in increasing order. *)
Theorem tabFlags_String_names (t : N) :
  match (filter (fun p => N.land t p.1 = p.1) flagBits).*2 with
  | [] => tabFlags_String t = EmptyString
  | name :: names =>
    Strings.Split ","%char (tabFlags_String t) ≡ₚ name :: names
    /\ Sorted String.le (Strings.Split ","%char (tabFlags_String t))
  end.
Proof.
  unfold tabFlags_String, tabFlags_String_in. rewrite String_loop_spec. cbn [app].
  pose proof (set_names_comma_free t) as Hfree.
  destruct ((filter _ flagBits).*2) as [| name names] eqn:Hn; [reflexivity |].
  rewrite Split_Join.
  - split; [apply merge_sort_Permutation | apply Sorted_merge_sort; apply _].
  - intros Hnil. pose proof (merge_sort_Permutation String.le (name :: names)) as Hp.
    unfold sort_Strings in Hnil. rewrite Hnil in Hp.
    by apply Permutation_nil_l in Hp.
  - exact Hfree.
Qed.

(** X7: [Set] reads back what [String] prints exactly for the words
    with one named bit: then it returns that bit, which [flagBits] pairs
    with the printed name; for any other word [Set] fails on the output
    of [String]. *)
Theorem tabFlags_String_then_Set (t : N) :
  match tabFlags_Set 0 (tabFlags_String t) with
  | inr t' => t' = N.land t known_bits /\ (t', tabFlags_String t) ∈ flagBits
  | inl _ => N.land t known_bits ∉ flagBits.*1
  end.
Proof.
  rewrite tabFlags_String_known.
  assert (N.land t known_bits < 64) as Hlt.
  { change known_bits with (N.ones 6). rewrite N.land_ones.
    apply N.mod_lt. discriminate. }
  generalize dependent (N.land t known_bits). intros x Hx.
  destruct x as [| p];
    [| do 6 (try destruct p as [p | p |]); try lia ];
    match goal with
    | |- match ?s with _ => _ end =>
      let v := eval vm_compute in s in change s with v; cbv beta iota
    end;
    first [ split; [reflexivity |] | idtac ];
    match goal with
    | |- ?G => apply (bool_decide_eq_true_1 G); vm_compute; reflexivity
    end.
Qed.

(** ** Marker injection, lines 101-106 *)

Module InjectFacts.

Lemma inject_cons (flags : N) (b : N) (bs : list N) :
  inject flags (b :: bs)
  = (if b =? tab
     then if align_right flags then [space; termChar; space; tab]
          else [tab; termChar; space]
     else [b]) ++ inject flags bs.
Proof.
  unfold inject. rewrite align_right_test.
  destruct (align_right flags); rewrite Replace_cons; destruct (b =? tab); reflexivity.
Qed.

Lemma inject_nil' (flags : N) : inject flags [] = [].
Proof. unfold inject. destruct (_ =? _); reflexivity. Qed.

Lemma count_byte_app (x : N) (a b : list N) :
  count_byte x (a ++ b) = (count_byte x a + count_byte x b)%nat.
Proof. unfold count_byte. by rewrite filter_app, length_app. Qed.

Lemma count_byte_cons (x b : N) (bs : list N) :
  count_byte x (b :: bs) = ((if (b =? x)%N then 1 else 0) + count_byte x bs)%nat.
Proof.
  unfold count_byte. rewrite filter_cons.
  destruct (N.eqb_spec b x) as [-> | Hne].
  - by rewrite decide_True.
  - by rewrite decide_False.
Qed.

Lemma Split_cons_other (sep b : N) (s : list N) :
  b <> sep ->
  exists piece pieces,
    Bytes.Split sep s = piece :: pieces
    /\ Bytes.Split sep (b :: s) = (b :: piece) :: pieces.
Proof.
  intros Hne. cbn [Bytes.Split].
  destruct (N.eqb_spec b sep) as [-> | _]; [done |].
  destruct (Bytes.Split sep s) as [| piece pieces] eqn:Hs.
  - by apply Split_nonempty in Hs.
  - by exists piece, pieces.
Qed.

Lemma Split_app_other (sep : N) (pre s : list N) :
  sep ∉ pre ->
  exists piece pieces,
    Bytes.Split sep s = piece :: pieces
    /\ Bytes.Split sep (pre ++ s) = (pre ++ piece) :: pieces.
Proof.
  induction pre as [| b pre IH]; intros Hpre.
  - destruct (Bytes.Split sep s) as [| piece pieces] eqn:Hs.
    + by apply Split_nonempty in Hs.
    + exists piece, pieces. split; [reflexivity | exact Hs].
  - apply not_elem_of_cons in Hpre as [Hb Hpre].
    destruct (IH Hpre) as (piece & pieces & Hs & Hps).
    exists piece, pieces. split; [exact Hs |].
    destruct (Split_cons_other sep b (pre ++ s)) as (p & ps & Hs' & Hb'); [done |].
    rewrite <- app_comm_cons, Hb'. rewrite Hps in Hs'. by inversion Hs'.
Qed.

End InjectFacts.

Import InjectFacts.

(** X8: injection puts in exactly one sentinel per tab and neither adds
    nor removes a tab or a newline; the text grows by two bytes per tab,
    by three when right-aligned. *)
Theorem inject_counts (flags : N) (bs : list N) :
  count_byte termChar (inject flags bs)
  = (count_byte termChar bs + count_byte tab bs)%nat
  /\ count_byte tab (inject flags bs) = count_byte tab bs
  /\ count_byte newline (inject flags bs) = count_byte newline bs
  /\ length (inject flags bs)
     = (length bs + (if align_right flags then 3 else 2) * count_byte tab bs)%nat.
Proof.
  induction bs as [| b bs (IH1 & IH2 & IH3 & IH4)].
  - rewrite inject_nil'. repeat split. by destruct (align_right flags).
  - rewrite inject_cons, !count_byte_app, length_app, IH1, IH2, IH3, IH4.
    rewrite !(count_byte_cons _ b). cbn [length].
    clear IH1 IH2 IH3 IH4.
    generalize (count_byte termChar bs) (count_byte tab bs)
               (count_byte newline bs) (length bs).
    intros c1 c2 c3 len.
    destruct (N.eqb_spec b tab) as [-> | Hne].
    + destruct (align_right flags); repeat split;
        rewrite ?count_byte_cons; unfold count_byte; simpl; lia.
    + destruct (N.eqb_spec b termChar), (N.eqb_spec b newline);
        destruct (align_right flags); subst; repeat split;
        rewrite ?count_byte_cons;
        repeat match goal with
               | |- context [(?u =? ?v)] =>
                 destruct (N.eqb_spec u v); try done
               end;
        unfold count_byte; simpl; lia.
Qed.

(** X9: injection works line by line: the lines of the injected text
    are the injected lines of the text. *)
Theorem inject_lines (flags : N) (bs : list N) :
  Bytes.Split newline (inject flags bs) = inject flags <$> Bytes.Split newline bs.
Proof.
  induction bs as [| b bs IH].
  { cbn [Bytes.Split fmap list_fmap]. by rewrite !inject_nil'. }
  rewrite inject_cons.
  destruct (N.eqb_spec b newline) as [-> | Hnl].
  - change (newline =? tab) with false. cbn [app Bytes.Split].
    change (newline =? newline) with true. cbn [fmap list_fmap].
    by rewrite IH, inject_nil'.
  - destruct (Split_cons_other newline b bs Hnl) as (q & qs & Hq & ->).
    cbn [fmap list_fmap]. rewrite inject_cons.
    rewrite Hq in IH. cbn [fmap list_fmap] in IH.
    match goal with
    | |- Bytes.Split _ (?pre ++ _) = _ =>
      destruct (Split_app_other newline pre (inject flags bs)) as (p & ps & Hp & ->)
    end.
    + destruct (b =? tab); [destruct (align_right flags) |];
        repeat (apply not_elem_of_cons; split; [done |]); apply not_elem_of_nil.
    + rewrite IH in Hp. by inversion Hp.
Qed.

(** X10: a text without a tab goes to the tabwriter as it is. *)
Theorem inject_tab_free (flags : N) (bs : list N) :
  tab ∉ bs -> inject flags bs = bs.
Proof.
  induction bs as [| b bs IH]; intros Hbs; [apply inject_nil' |].
  apply not_elem_of_cons in Hbs as [Hb Hbs].
  rewrite inject_cons, IH by exact Hbs.
  destruct (N.eqb_spec b tab) as [-> | _]; done.
Qed.

Lemma inject_tab_free_witness :
  (tab ∉ [0x61; newline; 0x62])
  /\ inject 4 [0x61; newline; 0x62] = [0x61; newline; 0x62].
Proof.
  assert (tab ∉ [0x61; newline; 0x62]) as H
    by (apply (bool_decide_eq_true_1 _); vm_compute; reflexivity).
  split; [exact H | exact (inject_tab_free 4 _ H)].
Defined.

(** ** [applySep], lines 128-138 *)

Module ApplySepMore.

Lemma sanitize_valid (r : N) : ValidRune (sanitize r) = true.
Proof. unfold sanitize. destruct (ValidRune r) eqn:H; [exact H | reflexivity]. Qed.

Lemma sanitize_id (r : N) : ValidRune r = true -> sanitize r = r.
Proof. unfold sanitize. by intros ->. Qed.

Lemma EncodeRune_sanitize (r : N) : EncodeRune (sanitize r) = EncodeRune r.
Proof.
  unfold sanitize. destruct (ValidRune r) eqn:H; [reflexivity |].
  symmetry. by apply EncodeRune_invalid.
Qed.

Lemma encode_sanitize (rs : list N) : encode (sanitize <$> rs) = encode rs.
Proof.
  unfold encode. induction rs as [| r rs IH]; [reflexivity |].
  cbn [fmap list_fmap map concat] in *. by rewrite EncodeRune_sanitize, IH.
Qed.

(** Decoding what [string(runes)] wrote gives the runes back, the
    invalid ones as U+FFFD. *)
Lemma Runes_encode_any (rs : list N) : Runes (encode rs) = sanitize <$> rs.
Proof.
  rewrite <- encode_sanitize. apply Runes_encode.
  apply Forall_fmap, Forall_forall. intros r _. apply sanitize_valid.
Qed.

Lemma sanitize_valid_runes (rs : list N) : valid_runes rs -> sanitize <$> rs = rs.
Proof.
  induction 1 as [| r rs Hr _ IH]; [reflexivity |].
  cbn [fmap list_fmap] in *. by rewrite sanitize_id, IH.
Qed.

Lemma sanitize_termChar (x : N) :
  ValidRune x = true -> (sanitize x =? termChar) = (x =? termChar).
Proof. intros H. by rewrite sanitize_id. Qed.

(** Substituting and then sanitizing is substituting the sanitized
    glyph, in a line of valid code points. *)
Lemma sanitize_subst_runes (seps : gset nat) (r : N) (force : bool) (rs : list N) :
  valid_runes rs ->
  sanitize <$> subst_runes seps r force rs = subst_runes seps (sanitize r) force rs.
Proof.
  intros Hv. apply list_eq. intros j.
  rewrite list_lookup_fmap, !subst_runes_lookup.
  destruct (rs !! j) as [x |] eqn:Hx; [| by destruct (decide _)].
  assert (ValidRune x = true) as Hxv by (eapply Forall_lookup in Hv; eauto).
  destruct (decide _); simpl; f_equal; [| by apply sanitize_id].
  unfold put. destruct (force || (x =? termChar)); [reflexivity | by apply sanitize_id].
Qed.

Lemma subst_runes_idem (seps : gset nat) (r : N) (force : bool) (rs : list N) :
  subst_runes seps r force (subst_runes seps r force rs) = subst_runes seps r force rs.
Proof.
  apply list_eq. intros j. rewrite !subst_runes_lookup.
  destruct (decide (j ∈ seps)); [| reflexivity].
  destruct (rs !! j) as [x |]; [| reflexivity]. simpl. f_equal.
  unfold put. destruct force; simpl; [reflexivity |].
  destruct (x =? termChar) eqn:Hx; [| by rewrite Hx].
  destruct (r =? termChar) eqn:Hr; [| reflexivity].
  apply N.eqb_eq in Hr. by subst.
Qed.

Lemma applySep_Runes_any (seps : gset nat) (sep : list N) (r : N) (force : bool) :
  Runes (applySep seps sep r force) = subst_runes seps (sanitize r) force (Runes sep).
Proof.
  rewrite applySep_bytes, Runes_encode_any.
  apply sanitize_subst_runes, Runes_valid.
Qed.

Lemma applySep_sanitize (seps : gset nat) (sep : list N) (r : N) (force : bool) :
  applySep seps sep (sanitize r) force = applySep seps sep r force.
Proof.
  rewrite !applySep_bytes.
  rewrite <- (encode_sanitize (subst_runes seps r force (Runes sep))).
  by rewrite sanitize_subst_runes by apply Runes_valid.
Qed.

End ApplySepMore.

Import ApplySepMore.

(** X11: the order in which [applySep] ranges over the map
    [separators] does not show in its result: any duplicate-free order of
    the indices gives the bytes of [applySep] at the set of these
    indices. *)
Theorem applySep_any_order (order : list nat) (sep : list N) (r : N) (force : bool) :
  NoDup order ->
  applySep_in order sep r force = applySep (list_to_set order) sep r force.
Proof.
  intros Hnd. apply applySep_in_order; [exact Hnd |].
  intros i. by rewrite elem_of_list_to_set.
Qed.

Lemma applySep_any_order_witness :
  NoDup [3%nat; 0%nat; 1%nat]
  /\ applySep_in [3%nat; 0%nat; 1%nat] [termChar; 0x61; 0x62; termChar] Glyph.light_v false
     = applySep (list_to_set [3%nat; 0%nat; 1%nat]) [termChar; 0x61; 0x62; termChar]
                Glyph.light_v false.
Proof.
  assert (NoDup [3%nat; 0%nat; 1%nat]) as H
    by (apply (bool_decide_eq_true_1 (NoDup _)); vm_compute; reflexivity).
  split; [exact H | exact (applySep_any_order _ _ _ _ H)].
Defined.

(** X12: for any rune whatever, valid or not, [applySep] keeps the number
    of code points of the line, writes valid UTF-8, and substitutes the
    glyph that [string(runes)] makes of the rune (U+FFFD for an invalid
    one) at the separator columns. *)
Theorem applySep_any_rune (separators : gset nat) (sep : list N) (r : N) (force : bool) :
  Runes (applySep separators sep r force)
  = subst_runes separators (sanitize r) force (Runes sep)
  /\ length (Runes (applySep separators sep r force)) = length (Runes sep)
  /\ encode (Runes (applySep separators sep r force)) = applySep separators sep r force.
Proof.
  rewrite applySep_Runes_any. split; [reflexivity |].
  split; [apply subst_runes_length |].
  rewrite <- (applySep_sanitize separators sep r force), applySep_bytes. reflexivity.
Qed.

(** X13: a second pass of [applySep] with the same glyph changes no
    byte (line 157 repeats the pass of line 150). *)
Theorem applySep_idempotent (separators : gset nat) (sep : list N) (r : N) (force : bool) :
  applySep separators (applySep separators sep r force) r force
  = applySep separators sep r force.
Proof.
  rewrite <- !(applySep_sanitize separators _ r force).
  rewrite (applySep_bytes separators (applySep _ _ _ _)).
  rewrite applySep_Runes by apply sanitize_valid.
  rewrite subst_runes_idem. symmetry. apply applySep_bytes.
Qed.

(** ** The boxed renderer, lines 113-182 *)

Module BoxFacts.

Lemma elem_of_concat {A : Type} (x : A) (ls : list (list A)) :
  x ∈ concat ls <-> exists l, x ∈ l /\ l ∈ ls.
Proof.
  induction ls as [| l ls IH]; simpl.
  - split; [by intros ?%elem_of_nil | by intros (l & _ & ?%elem_of_nil)].
  - rewrite elem_of_app, IH. split.
    + intros [H | (l' & Hx & Hl')].
      * exists l. split; [exact H | apply list_elem_of_here].
      * exists l'. split; [exact Hx | by apply list_elem_of_further].
    + intros (l' & Hx & [-> | Hl']%elem_of_cons); [by left |].
      right. by exists l'.
Qed.

(** In a line of the aligned text every sentinel stands at a separator
    column, so the pass without [force] turns all its sentinels, and
    nothing else, into the bar. *)
Lemma subst_line (outbuf line : list N) (v : N) :
  line ∈ split_lines outbuf ->
  subst_runes (separator_columns outbuf) v false (Runes line)
  = bar_for_sentinel v (Runes line).
Proof.
  intros Hl. apply list_eq. intros j.
  unfold bar_for_sentinel. rewrite subst_runes_lookup, list_lookup_fmap.
  destruct (Runes line !! j) as [x |] eqn:Hx; [| by destruct (decide _)].
  destruct (decide _) as [_ | Hj]; [reflexivity |]. simpl. f_equal.
  destruct (N.eqb_spec x termChar) as [-> | _]; [| reflexivity].
  exfalso. apply Hj. rewrite separator_columns_spec.
  apply elem_of_all_sentinel_columns. by exists line.
Qed.

(** What a write of the box is: a rule of four glyphs, or the row of a
    line of the aligned text. *)
Lemma box_runes_elem (header rowlines : bool) (seps : gset nat) (w : nat)
    (lines : list (list N)) (d : Site * list N) :
  d ∈ box_runes header rowlines seps w lines ->
  (exists left h j right,
      glyph left /\ glyph h /\ glyph j /\ glyph right
      /\ left <> j /\ h <> j /\ right <> j
      /\ junction header d.1 = Some j
      /\ d.2 = rule_runes seps w left h j right)
  \/ (exists n line,
        lines !! n = Some line /\ is_data d = true
        /\ d.2 = row_runes seps w (bar header n) line).
Proof.
  unfold box_runes. intros [Hd | Hd]%elem_of_app.
  - apply elem_of_concat in Hd as (ds & Hd & Hds).
    apply elem_of_lookup_imap in Hds as (n & line & -> & Hl).
    unfold emit_runes in Hd.
    destruct n as [| n]; [destruct header | destruct (rowlines && _)];
      repeat (apply elem_of_cons in Hd as [-> | Hd]);
      try (by apply elem_of_nil in Hd);
      try (right; eexists _, line; by repeat split);
      left; do 4 eexists; cbn [fst snd junction];
      (refine (conj _ (conj _ (conj _ (conj _ (conj _ (conj _ (conj _
                  (conj _ eq_refl))))))));
         repeat split; (reflexivity || discriminate)).
  - apply list_elem_of_singleton in Hd as ->.
    left. do 4 eexists. cbn [fst snd junction].
    refine (conj _ (conj _ (conj _ (conj _ (conj _ (conj _ (conj _
               (conj _ eq_refl))))))));
      repeat split; (reflexivity || discriminate).
Qed.

Lemma fst_encoded (writes : list (Site * list N)) : (encoded writes).*1 = writes.*1.
Proof.
  unfold encoded. induction writes as [| [s rs] writes IH]; [reflexivity |].
  cbn [fmap list_fmap fst] in *. by rewrite IH.
Qed.

Lemma imap_units {A B : Type} (c : nat -> B) (l : list A) :
  imap (fun k _ => c k) l = imap (fun k _ => c k) (replicate (length l) ()).
Proof.
  revert c. induction l as [| x l IH]; intros c; [reflexivity |].
  cbn [length replicate]. rewrite !imap_cons. f_equal. apply (IH (c ∘ S)).
Qed.

Lemma Split_snoc_sep (sep : N) (s : list N) :
  Bytes.Split sep (s ++ [sep]) = Bytes.Split sep s ++ [[]].
Proof.
  induction s as [| b s IH]; simpl.
  - by rewrite N.eqb_refl.
  - destruct (b =? sep); [by rewrite IH |].
    rewrite IH. destruct (Bytes.Split sep s) as [| p ps] eqn:Hs; [| reflexivity].
    by apply Split_nonempty in Hs.
Qed.

Lemma max_list_snoc (l : list nat) (n : nat) :
  max_list (l ++ [n]) = Nat.max (max_list l) n.
Proof. induction l as [| m l IH]; simpl in *; lia. Qed.

End BoxFacts.

Import BoxFacts.

(** X14: in box mode stdout is valid UTF-8 whatever the bytes of the
    aligned text are: decoding it and encoding the code points again
    gives the same bytes. *)
Theorem boxed_is_utf8 (header rowlines : bool) (outbuf : list N) :
  encode (Runes (boxed header rowlines outbuf)) = boxed header rowlines outbuf.
Proof. rewrite boxed_encoded, Runes_encode_any. apply encode_sanitize. Qed.

(** The box holds no sentinel byte. *)
Lemma boxed_without_sentinel (header rowlines : bool) (outbuf : list N) :
  termChar ∉ boxed header rowlines outbuf.
Proof.
  rewrite boxed_encoded. intros H%encode_ascii; [| reflexivity].
  apply elem_of_concat in H as (rs & Hrs & Hin).
  apply list_elem_of_fmap in Hin as (d & -> & Hd).
  apply box_runes_elem in Hd
    as [(left & h & j & right & (_ & _ & Hl) & (_ & _ & Hh) & (_ & _ & Hj)
         & (_ & _ & Hr) & _ & _ & _ & _ & Hd)
       | (n & line & Hl & _ & Hd)];
    rewrite Hd in Hrs.
  - unfold rule_runes in Hrs.
    rewrite !elem_of_app, !elem_of_cons, !elem_of_nil in Hrs.
    destruct Hrs as [[H | [H | []]] | [[H | H]%subst_runes_elem | [H | [H | []]]]];
      try done.
    by apply elem_of_replicate_inv in H.
  - apply list_elem_of_lookup_2 in Hl.
    unfold row_runes in Hrs. rewrite subst_line in Hrs by exact Hl.
    assert (bar header n <> termChar) as Hbar by (by destruct n, header).
    rewrite !elem_of_app, !elem_of_cons, !elem_of_nil in Hrs.
    destruct Hrs as [[H | [H | []]] | [H | [H | [H | [H | []]]]]]; try done.
    + unfold bar_for_sentinel in H.
      apply list_elem_of_fmap in H as (x & Hx & _).
      destruct (N.eqb_spec x termChar); congruence.
    + by apply elem_of_replicate_inv in H.
Qed.

(** X16: a row shows the text of its line unchanged but for the
    sentinels: each of them, and nothing else, has become the bar. *)
Theorem rows_keep_text (header rowlines : bool) (outbuf : list N) :
  data_lines (render header rowlines outbuf)
  = imap (fun n line =>
            [bar header n; space]
            ++ bar_for_sentinel (bar header n) (Runes line)
            ++ replicate (render_width outbuf - length (Runes line)) space
            ++ [bar header n; newline])
         (split_lines outbuf).
Proof.
  rewrite data_lines_render. apply imap_ext. intros n line Hl.
  unfold row_runes. rewrite subst_line; [reflexivity |].
  eapply list_elem_of_lookup_2. exact Hl.
Qed.

Lemma render_fst_sites (header rowlines : bool) (outbuf : list N) :
  (render header rowlines outbuf).*1
  = sites header rowlines (length (split_lines outbuf)).
Proof.
  rewrite render_encoded, fst_encoded. unfold box_runes, sites.
  destruct (split_lines outbuf) as [| first rest] eqn:Hlines.
  { by apply Split_nonempty in Hlines. }
  rewrite imap_cons. cbn [concat length]. rewrite !fmap_app, <- app_assoc.
  replace (S (length rest) - 1)%nat with (length rest) by lia.
  f_equal; [by destruct header |]. f_equal.
  rewrite <- (imap_units (fun k =>
    if rowlines && ((header && (0 <? k)%nat) || negb header)
    then [RowRule; Row] else [Row]) rest).
  apply fmap_concat_imap. intros k line _. cbn [compose emit_runes].
  replace (1 <? S k)%nat with (0 <? k)%nat by (by destruct k).
  by destruct (rowlines && _).
Qed.

(** X17: the order of the writes in all four modes: the frame of the
    first line (with [-header] its heavy box), then every further line,
    preceded by a row rule with [-rowlines] - but with [-header] not the
    line that follows the header -, then the bottom rule. *)
Theorem render_sites (header rowlines : bool) (outbuf : list N) :
  (render header rowlines outbuf).*1
  = sites header rowlines (length (split_lines outbuf)).
Proof. apply render_fst_sites. Qed.

(** X18: the box with [-header]: a heavy top rule with [┳], the first
    line between heavy bars, the rule [┡━╇━┩] below it, then the further
    lines between light bars - with [-rowlines] a light rule before each
    of them but the first -, then the bottom rule. *)
Theorem header_box (rowlines : bool) (outbuf : list N) :
  let seps := separator_columns outbuf in
  let w := render_width outbuf in
  exists first rest,
    split_lines outbuf = first :: rest
    /\ decoded (render true rowlines outbuf)
       = (TopRule, rule_runes seps w Glyph.heavy_down_right Glyph.heavy_h
                              Glyph.heavy_down_h Glyph.heavy_down_left)
         :: (HeaderLine, row_runes seps w Glyph.heavy_v first)
         :: (HeaderRule, rule_runes seps w Glyph.mixed_v_right Glyph.heavy_h
                                    Glyph.mixed_cross Glyph.mixed_v_left)
         :: concat (imap (fun k line =>
                            (if rowlines && (0 <? k)%nat
                             then [ (RowRule,
                                     rule_runes seps w Glyph.light_v_right Glyph.light_h
                                                Glyph.light_cross Glyph.light_v_left) ]
                             else [])
                            ++ [ (Row, row_runes seps w Glyph.light_v line) ])
                         rest)
         ++ [ (BottomRule, rule_runes seps w Glyph.light_up_right Glyph.heavy_h
                                      Glyph.light_up_h Glyph.light_up_left) ].
Proof.
  intros seps w.
  destruct (split_lines outbuf) as [| first rest] eqn:Hlines.
  { by apply Split_nonempty in Hlines. }
  exists first, rest. split; [reflexivity |].
  rewrite render_decoded, Hlines. unfold box_runes. rewrite imap_cons.
  cbn [concat emit_runes app]. do 5 f_equal.
  apply imap_ext. intros k line _. cbn [compose emit_runes].
  replace (1 <? S k)%nat with (0 <? k)%nat by (by destruct k).
  by rewrite orb_false_r.
Qed.

(** X19: the plain box: the light top rule with [┬], every line between
    light bars, and the bottom rule of [━] with [┴] between light
    corners. *)
Theorem plain_box (outbuf : list N) :
  let seps := separator_columns outbuf in
  let w := render_width outbuf in
  decoded (render false false outbuf)
  = (TopRule, rule_runes seps w Glyph.light_down_right Glyph.light_h
                         Glyph.light_down_h Glyph.light_down_left)
    :: ((fun line => (Row, row_runes seps w Glyph.light_v line)) <$> split_lines outbuf)
    ++ [ (BottomRule, rule_runes seps w Glyph.light_up_right Glyph.heavy_h
                                 Glyph.light_up_h Glyph.light_up_left) ].
Proof.
  intros seps w.
  destruct (split_lines outbuf) as [| first rest] eqn:Hlines.
  { by apply Split_nonempty in Hlines. }
  rewrite render_decoded, Hlines. unfold box_runes. rewrite imap_cons.
  cbn [concat emit_runes app fmap list_fmap]. do 4 f_equal.
  rewrite (imap_ext _ (const (fun line => [(Row, row_runes seps w Glyph.light_v line)])))
    by reflexivity.
  rewrite imap_const. clear Hlines.
  induction rest as [| line rest IH]; [reflexivity |].
  cbn [fmap list_fmap concat app]. f_equal. exact IH.
Qed.

(** X20: a newline at the end of the aligned text makes one more line,
    an empty one: the render width stays, and the last row of the box is
    blank. *)
Theorem trailing_newline_blank_row (header rowlines : bool) (outbuf : list N) :
  split_lines (outbuf ++ [newline]) = split_lines outbuf ++ [[]]
  /\ render_width (outbuf ++ [newline]) = render_width outbuf
  /\ last (data_lines (render header rowlines (outbuf ++ [newline])))
     = Some ([Glyph.light_v; space] ++ replicate (render_width outbuf) space
             ++ [Glyph.light_v; newline]).
Proof.
  assert (split_lines (outbuf ++ [newline]) = split_lines outbuf ++ [[]]) as Hs
    by apply Split_snoc_sep.
  assert (render_width (outbuf ++ [newline]) = render_width outbuf) as Hw.
  { rewrite !render_width_spec, Hs. unfold widths. rewrite map_app.
    cbn [map]. rewrite max_list_snoc, Runes_nil. simpl. lia. }
  split; [exact Hs |]. split; [exact Hw |].
  rewrite data_lines_render, Hs, Hw, imap_app. cbn [imap].
  rewrite last_snoc. f_equal.
  assert (length (split_lines outbuf) <> 0)%nat as Hlen.
  { pose proof (Split_nonempty newline outbuf). unfold split_lines.
    by destruct (Bytes.Split newline outbuf). }
  unfold row_runes, bar. rewrite Nat.add_0_r.
  destruct (length (split_lines outbuf)); [done |].
  rewrite Runes_nil. cbn [length subst_runes imap app]. by rewrite Nat.sub_0_r.
Qed.

Lemma Bytes_Join_Split (sep : N) (s : list N) :
  Bytes_Join (Bytes.Split sep s) sep = s.
Proof.
  induction s as [| b s IH]; [reflexivity |]. cbn [Bytes.Split].
  destruct (N.eqb_spec b sep) as [-> | Hne].
  - pose proof (Split_nonempty sep s) as Hn.
    destruct (Bytes.Split sep s) as [| p ps]; [done |].
    change (Bytes_Join ([] :: p :: ps) sep) with (sep :: Bytes_Join (p :: ps) sep).
    by rewrite IH.
  - pose proof (Split_nonempty sep s) as Hn.
    destruct (Bytes.Split sep s) as [| p ps]; [done |].
    destruct ps as [| p' ps]; cbn [Bytes_Join] in *; by rewrite <- IH.
Qed.

Lemma Split_length (sep : N) (s : list N) :
  length (Bytes.Split sep s) = S (count_byte sep s).
Proof.
  induction s as [| b s IH]; [reflexivity |].
  rewrite count_byte_cons. cbn [Bytes.Split].
  destruct (b =? sep); cbn [length]; [by rewrite IH |].
  pose proof (Split_nonempty sep s) as Hn.
  destruct (Bytes.Split sep s) as [| p ps]; [done |]. exact IH.
Qed.

(** X21: line 113 loses nothing of the aligned text: the lines joined by
    newlines are the text again, there is one line more than there are
    newlines, and no line holds a newline. *)
Theorem split_lines_faithful (outbuf : list N) :
  Bytes_Join (split_lines outbuf) newline = outbuf
  /\ length (split_lines outbuf) = S (count_byte newline outbuf)
  /\ Forall (fun line => newline ∉ line) (split_lines outbuf).
Proof.
  split; [apply Bytes_Join_Split |]. split; [apply Split_length |].
  apply Forall_forall. intros line. apply Split_pieces.
Qed.


(** X15: with [-box] no sentinel byte reaches stdout, not even one that
    came with the raw input, whatever the tabwriter does. *)
Theorem boxed_has_no_sentinel (tw : Tabwriter) (cfg : Config) (stdin : list N) :
  box cfg = true -> termChar ∉ stdout (main tw cfg stdin).
Proof.
  intros Hbox. unfold main. rewrite Hbox.
  destruct (padchar cfg) as [| pc [| pc' rest]]; cbn [negb stdout];
    try apply not_elem_of_nil.
  destruct (tw _ _ _ _ _ _); cbn [stdout];
    [apply boxed_without_sentinel | apply not_elem_of_nil].
Qed.

Lemma boxed_has_no_sentinel_witness :
  box boxed_only = true
  /\ (termChar ∉ stdout (main GoTabwriter.run boxed_only [0x61; termChar; 0x62])).
Proof.
  split; [reflexivity |].
  exact (boxed_has_no_sentinel GoTabwriter.run boxed_only _ eq_refl).
Defined.

(** X23: a rule has its junction glyph at the separator columns and
    nowhere else between its first two and its last glyph. *)
Theorem rule_junctions_exact (header rowlines : bool) (outbuf : list N) (i : nat) :
  (i < render_width outbuf)%nat ->
  Forall (fun c => match junction header c.1 with
                   | Some j => Runes c.2 !! (2 + i)%nat = Some j
                               <-> i ∈ separator_columns outbuf
                   | None => True
                   end)
         (render header rowlines outbuf).
Proof.
  intros Hi. apply Forall_forall. intros c Hc.
  assert ((c.1, Runes c.2) ∈ decoded (render header rowlines outbuf)) as Hd.
  { unfold decoded. apply list_elem_of_fmap. by exists c. }
  rewrite render_decoded in Hd.
  apply box_runes_elem in Hd
    as [(left & h & j & right & _ & _ & _ & _ & _ & Hhj & _ & Hj & Hd)
       | (n & line & _ & Hdata & _)]; cbn [fst snd] in *.
  - rewrite Hj, Hd. split.
    + intros H. destruct (decide (i ∈ separator_columns outbuf)) as [| Hni]; [done |].
      rewrite rule_runes_between in H by done. by inversion H.
    + intros H. by apply rule_runes_junction.
  - unfold is_data in Hdata. cbn [fst] in Hdata.
    by destruct (c.1).
Qed.

Lemma rule_junctions_exact_witness :
  (1 < render_width [0x61; termChar; 0x62]%N)%nat
  /\ Forall (fun c => match junction false c.1 with
                      | Some j => Runes c.2 !! 3%nat = Some j
                                  <-> 1%nat ∈ separator_columns [0x61; termChar; 0x62]
                      | None => True
                      end)
            (render false true [0x61; termChar; 0x62]).
Proof.
  assert (1 < render_width [0x61; termChar; 0x62]%N)%nat as H
    by (vm_compute; lia).
  split; [exact H | exact (rule_junctions_exact false true _ 1 H)].
Defined.

(** X24: the box is as narrow as the text allows: every line is followed
    by at least one space before the right bar, some line by exactly
    one, and the column before the right edge is never a separator
    column. *)
Theorem render_width_tight (outbuf : list N) :
  Forall (fun line => (length (Runes line) < render_width outbuf)%nat)
         (split_lines outbuf)
  /\ Exists (fun line => S (length (Runes line)) = render_width outbuf)
            (split_lines outbuf)
  /\ set_Forall (fun i => (S i < render_width outbuf)%nat) (separator_columns outbuf).
Proof.
  split; [| split].
  - apply Forall_forall. intros line. apply line_lt_render_width.
  - rewrite render_width_spec.
    assert (widths (split_lines outbuf) <> []) as Hne.
    { pose proof (Split_nonempty newline outbuf). unfold split_lines, widths.
      by destruct (Bytes.Split newline outbuf). }
    apply max_list_elem_of in Hne. unfold widths in Hne at 2.
    apply list_elem_of_fmap in Hne as (line & Heq & Hl).
    apply Exists_exists. exists line. split; [exact Hl | by rewrite Heq].
  - intros i Hi. rewrite separator_columns_spec in Hi.
    apply elem_of_all_sentinel_columns in Hi as (line & Hl & Hs).
    apply lookup_lt_Some in Hs. rewrite render_width_spec.
    assert (length (Runes line) ∈ widths (split_lines outbuf)) as Hw
      by (unfold widths; apply list_elem_of_fmap; by exists line).
    apply max_list_elem_of_le in Hw. lia.
Qed.

Lemma count_newline_writes (writes : list (Site * list N)) :
  Forall (fun c => count_byte newline c.2 = 1%nat) writes ->
  count_byte newline (concat (map snd writes)) = length writes.
Proof.
  induction 1 as [| c writes Hc _ IH]; [reflexivity |].
  cbn [map concat length]. rewrite count_byte_app, Hc, IH. reflexivity.
Qed.

Lemma count_byte_absent (b : N) (bs : list N) : b ∉ bs -> count_byte b bs = 0%nat.
Proof.
  induction bs as [| c bs IH]; [reflexivity |].
  intros [Hc Hbs]%not_elem_of_cons. rewrite count_byte_cons, IH by exact Hbs.
  destruct (N.eqb_spec c b); [by subst |]. reflexivity.
Qed.

Lemma render_one_newline (header rowlines : bool) (outbuf : list N) :
  Forall (fun c => count_byte newline c.2 = 1%nat) (render header rowlines outbuf).
Proof.
  rewrite render_encoded. unfold encoded. apply Forall_fmap.
  eapply Forall_impl; [apply box_runes_framed |].
  intros [site rs] Hf. cbn [compose snd] in *.
  destruct Hf as (body & -> & _ & Hnl & _).
  rewrite encode_app, count_byte_app, count_byte_absent; [reflexivity |].
  intros H. apply Hnl, encode_ascii; [reflexivity | exact H].
Qed.

Lemma concat_imap_length {A B : Type} (c : nat) (l : list A)
    (f : nat -> A -> list B) :
  (forall k y, length (f k y) = c) ->
  length (concat (imap f l)) = (c * length l)%nat.
Proof.
  revert f. induction l as [| y l IH]; intros f Hf; [simpl; lia |].
  rewrite imap_cons. cbn [concat length]. rewrite length_app, Hf, (IH (f ∘ S)).
  - lia.
  - intros k z. apply Hf.
Qed.

(** X25: the number of lines of stdout in box mode, for an aligned text
    of [n] lines: the [n] rows, the top and the bottom rule, with
    [-header] the rule below the header, and with [-rowlines] a rule
    before every row but the first (with [-header]: but the first
    two). *)
Theorem boxed_line_count (header rowlines : bool) (outbuf : list N) :
  let n := length (split_lines outbuf) in
  count_byte newline (boxed header rowlines outbuf)
  = (n + 2 + (if header then 1 else 0)
     + (if rowlines then n - 1 - (if header then 1 else 0) else 0))%nat
  /\ length (render header rowlines outbuf)
     = count_byte newline (boxed header rowlines outbuf)
  /\ n = S (count_byte newline outbuf).
Proof.
  intros n. unfold boxed.
  rewrite count_newline_writes by apply render_one_newline.
  split; [| split; [reflexivity | apply Split_length]].
  rewrite <- (length_fmap fst), render_fst_sites. fold n. unfold sites.
  rewrite !length_app. cbn [length].
  assert (n <> 0)%nat as Hn.
  { pose proof (Split_nonempty newline outbuf). unfold n, split_lines.
    by destruct (Bytes.Split newline outbuf). }
  destruct rowlines, header; cbn [andb orb negb].
  - destruct (n - 1)%nat as [| m] eqn:Hm; [simpl; lia |].
    cbn [replicate]. rewrite imap_cons. cbn [concat orb]. rewrite length_app.
    rewrite (concat_imap_length 2) by reflexivity.
    rewrite length_replicate. simpl. lia.
  - rewrite (concat_imap_length 2) by reflexivity.
    rewrite length_replicate. simpl. lia.
  - rewrite (concat_imap_length 1) by reflexivity.
    rewrite length_replicate. simpl. lia.
  - rewrite (concat_imap_length 1) by reflexivity.
    rewrite length_replicate. simpl. lia.
Qed.
